(** * Coverage gutters: aggregation and classification engine

    A shallow embedding of the two core classes of the extension:

    - [Renderer]: [filterCoverage], [filterLineCoverage],
      [filterBranchCoverage], [setsToRanges];
    - [CoverageParser] (files/filesloader.ts): [filesToSections],
      [addSections], the four extractors, [mergeSections],
      [mergeLineCoverage], [mergeBranchCoverage], [handleError].

    Conventions of the embedding.

    - JavaScript numbers that hold line numbers and counters are integers,
      modelled as [Z]; [x > 0] is [0 <? x], [x === 0] is [x =? 0].
    - A JavaScript [Set<number>] is a [gset Z]; [add] is union with a
      singleton, [delete] is difference with a singleton, [has] is
      membership.  A [Map<string, Section>] is a [gmap string CovSection].
    - Methods that mutate the [coverageSets] object in place are functions
      from the state before to the state after.
    - The optional members [lines] and [branches] of a section are options;
      reading [.details] of a missing member raises a TypeError, which the
      merge functions report as [None].
    - A value thrown or passed as an error by a parser is an [Error] object,
      a string or [null]/[undefined]: the callbacks declare [Error], but
      nothing checks it, and assigning [.message] raises a TypeError on the
      other two. *)

From Stdlib Require Import ZArith List Bool Lia.
From stdpp Require Import base gmap sets list strings pretty.

Local Open Scope Z_scope.

(** ** Section model (the shape produced by the parsers) *)

Module LineDetail.
Record t := mk { line : Z; hit : Z }.
End LineDetail.

Module BranchDetail.
Record t := mk { line : Z; block : Z; branch : Z; taken : Z }.
End BranchDetail.

Module FunctionDetail.
Record t := mk { name : string; line : Z; hit : Z }.
End FunctionDetail.

Module Lines.
Record t := mk { details : list LineDetail.t; hit : Z; found : Z }.
End Lines.

Module Branches.
Record t := mk { details : list BranchDetail.t; hit : Z; found : Z }.
End Branches.

Module Functions.
Record t := mk { details : list FunctionDetail.t; hit : Z; found : Z }.
End Functions.

(** [Section] of lcov-parse.  The engine reads [title], [file], [lines] and
    [branches]; [functions] is carried along untouched. *)
Record CovSection := mkSection {
  title : string;
  file : string;
  lines : option Lines.t;
  functions : option Functions.t;
  branches : option Branches.t;
}.

(** ** Renderer *)

Module Renderer.

(** [interface CoverageSets] *)
Record CoverageSets := mkSets {
  full : gset Z;
  partial : gset Z;
  none : gset Z;
}.

(** The fresh sets created by [renderCoverage] for each editor. *)
Definition emptySets : CoverageSets :=
  {| full := ∅; partial := ∅; none := ∅ |}.

(** Body of the [forEach] callback of [filterLineCoverage]. *)
Definition lineCallback (coverageSets : CoverageSets) (detail : LineDetail.t)
  : CoverageSets :=
  let line := LineDetail.line detail - 1 in
  if 0 <? LineDetail.hit detail then
    {| full := {[line]} ∪ full coverageSets;
       partial := partial coverageSets;
       none := none coverageSets ∖ {[line]} |}
  else
    if decide (line ∈ full coverageSets) then coverageSets
    else
      {| full := full coverageSets;
         partial := partial coverageSets;
         none := {[line]} ∪ none coverageSets |}.

Definition filterLineCoverage (section : CovSection) (coverageSets : CoverageSets)
  : CoverageSets :=
  match lines section with
  | None => coverageSets
  | Some l =>
      fold_left lineCallback
        (List.filter (fun detail => 0 <? LineDetail.line detail) (Lines.details l))
        coverageSets
  end.

(** Body of the [forEach] callback of [filterBranchCoverage]. *)
Definition branchCallback (coverageSets : CoverageSets) (detail : BranchDetail.t)
  : CoverageSets :=
  let line := BranchDetail.line detail - 1 in
  if decide (line ∈ full coverageSets) then
    {| full := full coverageSets ∖ {[line]};
       partial := {[line]} ∪ partial coverageSets;
       none := none coverageSets |}
  else coverageSets.

Definition filterBranchCoverage (section : CovSection) (coverageSets : CoverageSets)
  : CoverageSets :=
  match branches section with
  | None => coverageSets
  | Some b =>
      fold_left branchCallback
        (List.filter
           (fun detail => (BranchDetail.taken detail =? 0)
                          && (0 <? BranchDetail.line detail))
           (Branches.details b))
        coverageSets
  end.

(** Body of the [forEach] callback of [filterCoverage]: the line pass of the
    section, then its branch pass. *)
Definition sectionCallback (coverageSets : CoverageSets) (section : CovSection)
  : CoverageSets :=
  filterBranchCoverage section (filterLineCoverage section coverageSets).

Definition filterCoverage (sections : list CovSection) (coverageSets : CoverageSets)
  : CoverageSets :=
  fold_left sectionCallback sections coverageSets.

(** The classification computed by [renderCoverage] for one editor: fresh
    sets, then [filterCoverage] over the sections found for it. *)
Definition classify (sections : list CovSection) : CoverageSets :=
  filterCoverage sections emptySets.

(** [new Range(line, 0, line, 0)] *)
Record Range := mkRange {
  startLine : Z; startCharacter : Z; endLine : Z; endCharacter : Z;
}.

(** [setsToRanges]; the iteration order of the set is not modelled, the
    ranges come in the order of [elements]. *)
Definition setsToRanges (lines : gset Z) : list Range :=
  List.map (fun line => mkRange line 0 line 0) (elements lines).

(** What a section says about a 0-based line index, as the two passes read
    it: a line detail with [line > 0], [line - 1] the index and [hit > 0] ... *)
Definition reportsHit (section : CovSection) (index : Z) : bool :=
  match lines section with
  | None => false
  | Some l =>
      existsb
        (fun detail => (0 <? LineDetail.line detail)
                       && (LineDetail.line detail - 1 =? index)
                       && (0 <? LineDetail.hit detail))
        (Lines.details l)
  end.

(** ... and a branch detail with [taken === 0], [line > 0] and [line - 1]
    the index. *)
Definition reportsUntaken (section : CovSection) (index : Z) : bool :=
  match branches section with
  | None => false
  | Some b =>
      existsb
        (fun detail => (BranchDetail.taken detail =? 0)
                       && (0 <? BranchDetail.line detail)
                       && (BranchDetail.line detail - 1 =? index))
        (Branches.details b)
  end.

Definition pairwiseDisjoint (sets : CoverageSets) : Prop :=
  full sets ## partial sets /\ full sets ## none sets /\ partial sets ## none sets.

(** A line detail with [line > 0], [line - 1] the index and [hit > 0] false:
    the [else] branch of the line pass. *)
Definition reportsZero (section : CovSection) (index : Z) : bool :=
  match lines section with
  | None => false
  | Some l =>
      existsb
        (fun detail => (0 <? LineDetail.line detail)
                       && (LineDetail.line detail - 1 =? index)
                       && negb (0 <? LineDetail.hit detail))
        (Lines.details l)
  end.

(** *** Rendering to editors *)

(** The members of [Config] read by [Renderer]: the three decoration types,
    each identified by its [key]. *)
Record Config := mkConfig {
  fullCoverageDecorationType : string;
  noCoverageDecorationType : string;
  partialCoverageDecorationType : string;
}.

(** A [TextEditor] as far as rendering goes: its document and the ranges
    currently set for each decoration type.  [setDecorations] replaces the
    ranges of one decoration type. *)
Record TextEditor := mkTextEditor {
  document : string;
  decorations : gmap string (list Range);
}.

Definition setDecorations (editor : TextEditor) (decorationType : string)
    (ranges : list Range) : TextEditor :=
  {| document := document editor;
     decorations := <[decorationType := ranges]> (decorations editor) |}.

Module ICoverageLines.
Record t := mk { full : list Range; partial : list Range; none : list Range }.
End ICoverageLines.

Definition removeDecorationsForEditor (configStore : Config) (editor : TextEditor)
  : TextEditor :=
  let editor := setDecorations editor (fullCoverageDecorationType configStore) [] in
  let editor := setDecorations editor (noCoverageDecorationType configStore) [] in
  setDecorations editor (partialCoverageDecorationType configStore) [].

Definition setDecorationsForEditor (configStore : Config) (editor : TextEditor)
    (coverage : ICoverageLines.t) : TextEditor :=
  let editor :=
    setDecorations editor (fullCoverageDecorationType configStore)
      (ICoverageLines.full coverage) in
  let editor :=
    setDecorations editor (noCoverageDecorationType configStore)
      (ICoverageLines.none coverage) in
  setDecorations editor (partialCoverageDecorationType configStore)
    (ICoverageLines.partial coverage).

(** Body of the [forEach] callback of [renderCoverage];
    [findSectionsForEditor] is the method of [SectionFinder]. *)
Definition renderEditor (configStore : Config)
    (findSectionsForEditor : TextEditor -> gmap string CovSection -> list CovSection)
    (sections : gmap string CovSection) (textEditor : TextEditor) : TextEditor :=
  let textEditor := removeDecorationsForEditor configStore textEditor in
  let coverageSets := emptySets in
  let foundSections := findSectionsForEditor textEditor sections in
  match foundSections with
  | [] => textEditor
  | _ =>
      let coverageSets := filterCoverage foundSections coverageSets in
      let coverageLines :=
        {| ICoverageLines.full := setsToRanges (full coverageSets);
           ICoverageLines.none := setsToRanges (none coverageSets);
           ICoverageLines.partial := setsToRanges (partial coverageSets) |} in
      setDecorationsForEditor configStore textEditor coverageLines
  end.

Definition renderCoverage (configStore : Config)
    (findSectionsForEditor : TextEditor -> gmap string CovSection -> list CovSection)
    (sections : gmap string CovSection) (textEditors : list TextEditor)
  : list TextEditor :=
  List.map (renderEditor configStore findSectionsForEditor sections) textEditors.

End Renderer.

(** ** FilesLoader *)

Module FilesLoader.

(** The members of [Config] read by [FilesLoader]. *)
Record Config := mkConfig {
  manualCoverageFilePaths : list string;
  coverageFileNames : list string;
  coverageBaseDir : string;
  ignoredPathGlobs : string;
}.

(** What a call of [glob] does: it gives its matches (possibly none at all,
    [undefined]) or fails with an error, here already printed. *)
Inductive GlobResult :=
| Matches (files : option (list string))
| GlobFails (err : string).

(** The host of [FilesLoader]: the file system, [glob] (by pattern, working
    directory and ignore patterns) and the [fsPath] of the workspace
    folders, [None] when [workspace.workspaceFolders] is undefined.
    [readFile] gives [None] when the read is rejected. *)
Record Host := mkHost {
  existsSync : string -> bool;
  readFile : string -> option string;
  glob : string -> string -> string -> GlobResult;
  workspaceFolders : option (list string);
}.

(** The double quote, character 34. *)
Definition quote : string :=
  String (Ascii.Ascii false true false false false true false false) EmptyString.

(** [globFind], on the warnings shown so far by [window.showWarningMessage]. *)
Definition globFind (configStore : Config) (host : Host)
    (workspaceFolder fileName : string) (warnings : list string)
  : gset string * list string :=
  match glob host (coverageBaseDir configStore +:+ "/" +:+ fileName)
             workspaceFolder (ignoredPathGlobs configStore) with
  | Matches (Some (file :: files)) => (list_to_set (file :: files), warnings)
  | Matches _ => (∅, warnings)
  | GlobFails err =>
      (∅, warnings ++
            ["An error occured while looking for the coverage file " +:+ err])
  end.

(** [findCoverageForFileName]: one [globFind] per workspace folder, the
    results united.  The warnings are taken in the order of the folders. *)
Definition findCoverageForFileName (configStore : Config) (host : Host)
    (fileName : string) (warnings : list string) : gset string * list string :=
  let folders :=
    match workspaceFolders host with
    | Some folders => folders
    | None => []
    end in
  fold_left
    (fun (acc : gset string * list string) workspaceFolder =>
       let '(coverage, warnings) :=
         globFind configStore host workspaceFolder fileName (snd acc) in
       (fst acc ∪ coverage, warnings))
    folders (∅, warnings).

(** [findCoverageInWorkspace] *)
Definition findCoverageInWorkspace (configStore : Config) (host : Host)
    (fileNames : list string) (warnings : list string) : gset string * list string :=
  fold_left
    (fun (acc : gset string * list string) fileName =>
       let '(coverage, warnings) :=
         findCoverageForFileName configStore host fileName (snd acc) in
       (fst acc ∪ coverage, warnings))
    fileNames (∅, warnings).

(** The [filter] callback of [findCoverageFiles]. *)
Definition manualPathCallback (host : Host)
    (acc : list string * list string) (file : string) : list string * list string :=
  if existsSync host file then (fst acc ++ [file], snd acc)
  else
    (fst acc,
     snd acc ++
       ["manualCoverageFilePaths contains " +:+ quote +:+ file +:+ quote
          +:+ " which does not exist!"]).

(** [findCoverageFiles] *)
Definition findCoverageFiles (configStore : Config) (host : Host)
    (warnings : list string) : gset string * list string :=
  match manualCoverageFilePaths configStore with
  | _ :: _ =>
      let '(existingFiles, warnings) :=
        fold_left (manualPathCallback host) (manualCoverageFilePaths configStore)
          ([], warnings) in
      (list_to_set existingFiles, warnings)
  | [] =>
      let fileNames := coverageFileNames configStore in
      let '(files, warnings) :=
        findCoverageInWorkspace configStore host fileNames warnings in
      if decide (size files = 0%nat) then
        (∅, warnings ++
              ["Could not find a Coverage file! Searched for "
                 +:+ String.concat ", " fileNames])
      else (files, warnings)
  end.

(** [loadDataFiles]: [None] when a read is rejected, which rejects
    [Promise.all] and the whole call. *)
Definition loadDataFiles (host : Host) (files : gset string)
  : option (gmap string string) :=
  list_to_map <$>
    mapM (fun file => (fun data => (file, data)) <$> readFile host file)
         (elements files).

End FilesLoader.

(** ** CoverageParser *)

Module CoverageParser.

(** A [map] callback that also updates the variables it closes over: the
    closed-over variables are the state [S]. *)
Fixpoint mapState {S A B : Type} (f : S -> A -> S * B) (s : S) (l : list A)
  : S * list B :=
  match l with
  | [] => (s, [])
  | a :: l' =>
      let '(s1, b) := f s a in
      let '(s2, bs) := mapState f s1 l' in
      (s2, b :: bs)
  end.

(** *** Line merge

    The callbacks of [mergeLineCoverage] close over [hit], [found] and
    [seen]; [line.hit += 1] updates the detail object of the existing
    section in place and the same object is returned into [details].  The
    detail objects of one section are distinct objects and no object is
    shared between the two sections, so the update is modelled on values. *)

Definition lineHits (details : list LineDetail.t) : gset Z :=
  list_to_set
    (List.map LineDetail.line
       (List.filter (fun d => 0 <? LineDetail.hit d) details)).

Definition existingLineCallback (hits : gset Z)
    (st : Z * Z * gset Z) (line : LineDetail.t)
  : (Z * Z * gset Z) * LineDetail.t :=
  let '(hit, found, seen) := st in
  let found := found + 1 in
  let seen := {[LineDetail.line line]} ∪ seen in
  let line :=
    if decide (LineDetail.line line ∈ hits)
    then LineDetail.mk (LineDetail.line line) (LineDetail.hit line + 1)
    else line in
  let hit := if 0 <? LineDetail.hit line then hit + 1 else hit in
  ((hit, found, seen), line).

Definition incomingLineCallback
    (st : Z * Z * list LineDetail.t) (line : LineDetail.t)
  : Z * Z * list LineDetail.t :=
  let '(hit, found, details) := st in
  let found := found + 1 in
  let hit := if 0 <? LineDetail.hit line then hit + 1 else hit in
  (hit, found, details ++ [line]).

Definition mergeLineDetails (existing incoming : list LineDetail.t) : Lines.t :=
  let hits := lineHits incoming in
  let '((hit, found, seen), details) :=
    mapState (existingLineCallback hits) (0, 0, ∅) existing in
  let '(hit, found, details) :=
    fold_left incomingLineCallback
      (List.filter
         (fun d => negb (bool_decide (LineDetail.line d ∈ seen))) incoming)
      (hit, found, details) in
  Lines.mk details hit found.

(** [None] is the TypeError raised by [.details] of a missing [lines]. *)
Definition mergeLineCoverage (existingCoverage coverage : CovSection)
  : option Lines.t :=
  match lines coverage, lines existingCoverage with
  | Some incoming, Some existing =>
      Some (mergeLineDetails (Lines.details existing) (Lines.details incoming))
  | _, _ => None
  end.

(** *** Branch merge *)

(** [[branch.line, branch.block, branch.branch].join(":")] *)
Definition getKey (branch : BranchDetail.t) : string :=
  pretty (BranchDetail.line branch) +:+ ":" +:+
  pretty (BranchDetail.block branch) +:+ ":" +:+
  pretty (BranchDetail.branch branch).

Definition branchTaken (details : list BranchDetail.t) : gset string :=
  list_to_set
    (List.map getKey
       (List.filter (fun d => 0 <? BranchDetail.taken d) details)).

Definition existingBranchCallback (taken : gset string)
    (st : Z * Z * gset string) (branch : BranchDetail.t)
  : (Z * Z * gset string) * BranchDetail.t :=
  let '(hit, found, seen) := st in
  let key := getKey branch in
  let found := found + 1 in
  let seen := {[key]} ∪ seen in
  let branch :=
    if decide (key ∈ taken)
    then BranchDetail.mk (BranchDetail.line branch) (BranchDetail.block branch)
           (BranchDetail.branch branch) (BranchDetail.taken branch + 1)
    else branch in
  let hit := if 0 <? BranchDetail.taken branch then hit + 1 else hit in
  ((hit, found, seen), branch).

Definition incomingBranchCallback
    (st : Z * Z * list BranchDetail.t) (branch : BranchDetail.t)
  : Z * Z * list BranchDetail.t :=
  let '(hit, found, details) := st in
  let found := found + 1 in
  let hit := if 0 <? BranchDetail.taken branch then hit + 1 else hit in
  (hit, found, details ++ [branch]).

Definition mergeBranchDetails (existing incoming : list BranchDetail.t)
  : Branches.t :=
  let taken := branchTaken incoming in
  let '((hit, found, seen), details) :=
    mapState (existingBranchCallback taken) (0, 0, ∅) existing in
  let '(hit, found, details) :=
    fold_left incomingBranchCallback
      (List.filter (fun d => negb (bool_decide (getKey d ∈ seen))) incoming)
      (hit, found, details) in
  Branches.mk details hit found.

Definition mergeBranchCoverage (existingCoverage coverage : CovSection)
  : option Branches.t :=
  match branches coverage with
  | None => branches existingCoverage
  | Some incoming =>
      match branches existingCoverage with
      | None => branches coverage
      | Some existing =>
          Some (mergeBranchDetails (Branches.details existing)
                                   (Branches.details incoming))
      end
  end.

(** [{ ...existingSection, lines, branches }]; [None] when
    [mergeLineCoverage] raises. *)
Definition mergeSections (existingSection section : CovSection)
  : option CovSection :=
  match mergeLineCoverage existingSection section with
  | None => None
  | Some mergedLines =>
      Some {| title := title existingSection;
              file := file existingSection;
              lines := Some mergedLines;
              functions := functions existingSection;
              branches := mergeBranchCoverage existingSection section |}
  end.

(** *** Aggregation: [addSections], the extractors, [filesToSections] *)

(** The merge key [[section.title, section.file].join("::")]. *)
Definition sectionKey (section : CovSection) : string :=
  title section +:+ "::" +:+ file section.

(** [addToSectionsMap] on the [coverages] map.  The boolean is [true] when
    the call raised (its promise rejects); the map is then left as it was. *)
Definition addToSectionsMap (st : gmap string CovSection * bool)
    (section : CovSection) : gmap string CovSection * bool :=
  let '(coverages, raised) := st in
  let key := sectionKey section in
  match coverages !! key with
  | None => (<[key := section]> coverages, raised)
  | Some existingSection =>
      match mergeSections existingSection section with
      | Some mergedSection => (<[key := mergedSection]> coverages, raised)
      | None => (coverages, true)
      end
  end.

(** [data.map(addToSectionsMap)]: the calls run one after the other, in the
    order of [data], all of them, also after one has raised. *)
Definition addSections (coverages : gmap string CovSection)
    (data : list CovSection) : gmap string CovSection * bool :=
  fold_left addToSectionsMap data (coverages, false).

(** A JavaScript [Error] as far as [handleError] reads it. *)
Record Error := mkError {
  errorName : string;
  message : string;
  stack : option string;
}.

(** [CoverageType] of coveragefile.ts. *)
Inductive CoverageType := CLOVER | JACOCO | COBERTURA | LCOV | NONE.

(** A value thrown, or passed as the [err] of a callback: an object, a
    string (lcov-parse reports ['Failed to parse string']), or [null] or
    [undefined]. *)
Inductive ErrorValue :=
| ErrorObject (error : Error)
| ErrorString (text : string)
| ErrorNone.

(** [if (err)]: an object is truthy, a string unless it is empty. *)
Definition truthy (err : ErrorValue) : bool :=
  match err with
  | ErrorObject _ => true
  | ErrorString text => negb (String.eqb text "")
  | ErrorNone => false
  end.

(** What a promise-returning parser does: its promise fulfils or rejects. *)
Inductive ParseResult :=
| Returns (data : list CovSection)
| Throws (error : ErrorValue).

(** What a callback-taking parser does: it calls back once, with [err] and
    [data] ([err] is [ErrorNone] on success), or raises before calling back,
    or never calls back. *)
Inductive CallbackResult :=
| CallsBack (err : ErrorValue) (data : list CovSection)
| Raises (error : ErrorValue)
| Silent.

(** The collaborators of [CoverageParser] that are outside the engine: the
    format detection of [CoverageFile], the four parsers, and the clock read
    by [handleError] (one reading, already printed). *)
Record Collaborators := mkCollaborators {
  coverageFileType : string -> CoverageType;
  parseContentClover : string -> ParseResult;
  parseContentJacoco : string -> CallbackResult;
  parseContentCobertura : string -> CallbackResult;
  source : string -> CallbackResult;
  dateNow : string;
}.

(** State of a promise; [resolve] settles a pending promise and does nothing
    to a settled one. *)
Inductive Promise (A : Type) :=
| Fulfilled (value : A)
| Rejected
| Pending.
Arguments Fulfilled {A} value.
Arguments Rejected {A}.
Arguments Pending {A}.

Definition resolve {A : Type} (value : A) (p : Promise A) : Promise A :=
  match p with
  | Pending => Fulfilled value
  | _ => p
  end.

(** An exception leaving the executor of [new Promise] rejects the promise,
    unless it is settled already. *)
Definition reject {A : Type} (p : Promise A) : Promise A :=
  match p with
  | Pending => Rejected
  | _ => p
  end.

(** [Error.prototype.toString], used when [error.message] is empty. *)
Definition errorToString (error : Error) : string :=
  if decide (errorName error = "") then message error
  else if decide (message error = "") then errorName error
  else errorName error +:+ ": " +:+ message error.

(** [handleError]: the lines appended to the output channel. *)
Definition handleError (now : string) (system : string) (error : Error)
    (outputChannel : list string) : list string :=
  let message :=
    if decide (message error = "") then errorToString error else message error in
  let outputChannel :=
    outputChannel ++
      ["[" +:+ now +:+ "][coverageparser][" +:+ system +:+ "]: Error: " +:+ message] in
  match stack error with
  | Some stackTrace =>
      if decide (stackTrace = "") then outputChannel
      else
        outputChannel ++
          ["[" +:+ now +:+ "][coverageparser][" +:+ system +:+ "]: Stacktrace: "
             +:+ stackTrace]
  | None => outputChannel
  end.

(** [err.message = `filename: ${coverageFilename} ${err.message}`] *)
Definition tagError (coverageFilename : string) (err : Error) : Error :=
  {| errorName := errorName err;
     message := "filename: " +:+ coverageFilename +:+ " " +:+ message err;
     stack := stack err |}.

(** [checkError] of the callback extractors, on the promise under
    construction and the output channel.  [None] is the TypeError that
    [err.message = ...] raises when a truthy [err] is not an object; nothing
    has been logged or resolved by then. *)
Definition checkError (now system coverageFilename : string) (err : ErrorValue)
    (st : Promise (list CovSection) * list string)
  : option (Promise (list CovSection) * list string) :=
  if truthy err then
    match err with
    | ErrorObject e =>
        Some (resolve [] (fst st),
              handleError now system (tagError coverageFilename e) (snd st))
    | _ => None
    end
  else Some st.

(** The shape shared by [xmlExtractCobertura], [xmlExtractJacoco] and
    [lcovExtract]: [checkError(err); return resolve(data)] in the callback,
    [checkError(error)] in the [catch].  The callback is an [async]
    function: an exception in it rejects the promise of the callback, which
    nobody awaits, and [resolve] is not reached.  The [catch] runs in the
    executor of the promise: an exception there rejects the promise. *)
Definition callbackExtract (now system : string) (result : CallbackResult)
    (coverageFilename : string) (outputChannel : list string)
  : Promise (list CovSection) * list string :=
  match result with
  | CallsBack err data =>
      match checkError now system coverageFilename err (Pending, outputChannel) with
      | Some st => (resolve data (fst st), snd st)
      | None => (Pending, outputChannel)
      end
  | Raises error =>
      match checkError now system coverageFilename error (Pending, outputChannel) with
      | Some st => st
      | None => (reject Pending, outputChannel)
      end
  | Silent => (Pending, outputChannel)
  end.

Definition xmlExtractCobertura (c : Collaborators) (coverageFilename xmlFile : string) :=
  callbackExtract (dateNow c) "cobertura-parse" (parseContentCobertura c xmlFile)
    coverageFilename.

Definition xmlExtractJacoco (c : Collaborators) (coverageFilename xmlFile : string) :=
  callbackExtract (dateNow c) "jacoco-parse" (parseContentJacoco c xmlFile)
    coverageFilename.

Definition lcovExtract (c : Collaborators) (coverageFilename lcovFile : string) :=
  callbackExtract (dateNow c) "lcov-parse" (source c lcovFile) coverageFilename.

Definition xmlExtractClover (c : Collaborators) (coverageFilename xmlFile : string)
    (outputChannel : list string) : Promise (list CovSection) * list string :=
  match parseContentClover c xmlFile with
  | Returns data => (Fulfilled data, outputChannel)
  | Throws (ErrorObject error) =>
      (Fulfilled [],
       handleError (dateNow c) "clover-parse" (tagError coverageFilename error)
         outputChannel)
  | Throws _ =>
      (* [error.message = ...] raises in the [catch]: the async function
         rejects *)
      (Rejected, outputChannel)
  end.

(** The [switch] of [filesToSections] for one entry of [files]: the promise
    pushed to [parsePromises], if any. *)
Definition extract (c : Collaborators) (entry : string * string)
    (outputChannel : list string)
  : option (Promise (list CovSection)) * list string :=
  let '(fileName, fileContent) := entry in
  let pushed (r : Promise (list CovSection) * list string) := (Some (fst r), snd r) in
  match coverageFileType c fileContent with
  | CLOVER => pushed (xmlExtractClover c fileName fileContent outputChannel)
  | JACOCO => pushed (xmlExtractJacoco c fileName fileContent outputChannel)
  | COBERTURA => pushed (xmlExtractCobertura c fileName fileContent outputChannel)
  | LCOV => pushed (lcovExtract c fileName fileContent outputChannel)
  | NONE => (None, outputChannel)
  end.

(** The [for] loop of [filesToSections]: the promises in the order of
    [files].  The output channel receives the lines in the same order. *)
Fixpoint parsePromises (c : Collaborators) (files : list (string * string))
    (outputChannel : list string)
  : list (Promise (list CovSection)) * list string :=
  match files with
  | [] => ([], outputChannel)
  | entry :: rest =>
      let '(p, outputChannel) := extract c entry outputChannel in
      let '(ps, outputChannel) := parsePromises c rest outputChannel in
      (match p with Some p => p :: ps | None => ps end, outputChannel)
  end.

(** [Promise.all]: rejected when a member is rejected, else pending while a
    member is pending, else fulfilled with the values in order. *)
Fixpoint promiseAll {A : Type} (ps : list (Promise A)) : Promise (list A) :=
  match ps with
  | [] => Fulfilled []
  | p :: rest =>
      match p, promiseAll rest with
      | Rejected, _ => Rejected
      | _, Rejected => Rejected
      | Pending, _ => Pending
      | _, Pending => Pending
      | Fulfilled v, Fulfilled vs => Fulfilled (v :: vs)
      end
  end.

(** [results.reduce((acc, val) => acc.concat(val), [])] *)
Definition flatten (results : list (list CovSection)) : list CovSection :=
  fold_left (fun acc val => acc ++ val) results [].

(** [filesToSections], with [files] as the entries of the map in iteration
    order and the output channel as state. *)
Definition filesToSections (c : Collaborators) (files : list (string * string))
    (outputChannel : list string)
  : Promise (gmap string CovSection) * list string :=
  let '(promises, outputChannel) := parsePromises c files outputChannel in
  (match promiseAll promises with
   | Fulfilled results =>
       let '(coverages, raised) := addSections ∅ (flatten results) in
       if raised then Rejected else Fulfilled coverages
   | Rejected => Rejected
   | Pending => Pending
   end,
   outputChannel).

(** A file whose parse fails: its parser reports an error, by rejecting, by
    calling back with an error ([err] truthy), or by raising. *)
Definition parseFails (c : Collaborators) (entry : string * string) : bool :=
  let failed (r : CallbackResult) :=
    match r with
    | CallsBack err _ => truthy err
    | Raises _ => true
    | Silent => false
    end in
  match coverageFileType c (snd entry) with
  | CLOVER =>
      match parseContentClover c (snd entry) with
      | Throws _ => true
      | Returns _ => false
      end
  | JACOCO => failed (parseContentJacoco c (snd entry))
  | COBERTURA => failed (parseContentCobertura c (snd entry))
  | LCOV => failed (source c (snd entry))
  | NONE => false
  end.

End CoverageParser.

(** ** Notions used to state the properties of the merge and the aggregation *)

Module MergeSpec.

Import CoverageParser.

(** The incoming details report this line number as hit: some detail has
    this [line] and [hit > 0]. *)
Definition incomingReportsHit (incoming : list LineDetail.t) (line : Z) : bool :=
  existsb
    (fun r => (LineDetail.line r =? line) && (0 <? LineDetail.hit r))
    incoming.

(** Number of details with a positive hit counter. *)
Definition positiveLines (details : list LineDetail.t) : nat :=
  length (List.filter (fun d => 0 <? LineDetail.hit d) details).

(** Number of distinct line numbers across the details of both inputs. *)
Definition distinctLines (existing incoming : list LineDetail.t) : nat :=
  size (list_to_set (List.map LineDetail.line (existing ++ incoming)) : gset Z).

(** The incoming details whose line number does not occur in [existing]. *)
Definition newLines (existing incoming : list LineDetail.t) : list LineDetail.t :=
  List.filter
    (fun d => negb (bool_decide
       (LineDetail.line d ∈ (list_to_set (List.map LineDetail.line existing) : gset Z))))
    incoming.

(** An existing detail after the merge. *)
Definition mergedLine (incoming : list LineDetail.t) (d : LineDetail.t)
  : LineDetail.t :=
  if incomingReportsHit incoming (LineDetail.line d)
  then LineDetail.mk (LineDetail.line d) (LineDetail.hit d + 1)
  else d.

(** What [filesToSections] awaits before it adds sections: the outcome of
    [Promise.all] with the fulfilled results flattened. *)
Definition awaited (promises : list (Promise (list CovSection)))
  : Promise (list CovSection) :=
  match promiseAll promises with
  | Fulfilled results => Fulfilled (flatten results)
  | Rejected => Rejected
  | Pending => Pending
  end.

(** [awaited] one promise at a time. *)
Definition awaitedStep (p r : Promise (list CovSection)) : Promise (list CovSection) :=
  match p, r with
  | Rejected, _ => Rejected
  | _, Rejected => Rejected
  | Pending, _ => Pending
  | _, Pending => Pending
  | Fulfilled v, Fulfilled vs => Fulfilled (v ++ vs)
  end.

(** The promises pushed by one iteration of the loop of [filesToSections]. *)
Definition pushed (p : option (Promise (list CovSection)))
  : list (Promise (list CovSection)) :=
  match p with Some p => [p] | None => [] end.

(** The same notions for branches, keyed by [getKey]. *)
Definition incomingReportsTaken (incoming : list BranchDetail.t) (key : string)
  : bool :=
  existsb
    (fun r => bool_decide (getKey r = key) && (0 <? BranchDetail.taken r))
    incoming.

Definition positiveBranches (details : list BranchDetail.t) : nat :=
  length (List.filter (fun d => 0 <? BranchDetail.taken d) details).

Definition newBranches (existing incoming : list BranchDetail.t)
  : list BranchDetail.t :=
  List.filter
    (fun d => negb (bool_decide
       (getKey d ∈ (list_to_set (List.map getKey existing) : gset string))))
    incoming.

Definition mergedBranch (incoming : list BranchDetail.t) (b : BranchDetail.t)
  : BranchDetail.t :=
  if incomingReportsTaken incoming (getKey b)
  then BranchDetail.mk (BranchDetail.line b) (BranchDetail.block b)
         (BranchDetail.branch b) (BranchDetail.taken b + 1)
  else b.

(** The string holds no [":"] (character 58). *)
Definition colon : Ascii.ascii :=
  Ascii.Ascii false true false true true true false false.

Fixpoint colonFree (s : string) : bool :=
  match s with
  | EmptyString => true
  | String a s' => negb (Ascii.eqb a colon) && colonFree s'
  end.

(** The section reports this line number as hit (no [line > 0] filter: the
    merge compares raw line numbers). *)
Definition sectionReportsHit (section : CovSection) (line : Z) : bool :=
  match lines section with
  | Some l => incomingReportsHit (Lines.details l) line
  | None => false
  end.

(** Number of sections of [data] stored under [key] that report the line
    number as hit. *)
Definition runsReporting (key : string) (data : list CovSection) (line : Z) : nat :=
  length
    (List.filter
       (fun s => bool_decide (sectionKey s = key) && sectionReportsHit s line)
       data).

(** Every entry of the map is stored under its own merge key. *)
Definition keyed (coverages : gmap string CovSection) : Prop :=
  forall key v, coverages !! key = Some v -> sectionKey v = key.

(** The error value the parser of the detected format reports for the
    entry: the rejection value, the truthy [err] of the callback, or the
    value raised. *)
Definition reportedError (c : Collaborators) (entry : string * string)
  : option ErrorValue :=
  let reported (r : CallbackResult) :=
    match r with
    | CallsBack err _ => if truthy err then Some err else None
    | Raises error => Some error
    | Silent => None
    end in
  match coverageFileType c (snd entry) with
  | CLOVER =>
      match parseContentClover c (snd entry) with
      | Throws error => Some error
      | Returns _ => None
      end
  | JACOCO => reported (parseContentJacoco c (snd entry))
  | COBERTURA => reported (parseContentCobertura c (snd entry))
  | LCOV => reported (source c (snd entry))
  | NONE => None
  end.

(** The sections the parser of the detected format gives for the entry:
    the data of a successful parse, none otherwise. *)
Definition parsedSections (c : Collaborators) (entry : string * string)
  : list CovSection :=
  let parsed (r : CallbackResult) :=
    match r with
    | CallsBack err data => if truthy err then [] else data
    | _ => []
    end in
  match coverageFileType c (snd entry) with
  | CLOVER =>
      match parseContentClover c (snd entry) with
      | Returns data => data
      | Throws _ => []
      end
  | JACOCO => parsed (parseContentJacoco c (snd entry))
  | COBERTURA => parsed (parseContentCobertura c (snd entry))
  | LCOV => parsed (source c (snd entry))
  | NONE => []
  end.

(** The callback parser of the detected format never calls back. *)
Definition neverCallsBack (c : Collaborators) (entry : string * string) : bool :=
  let silent (r : CallbackResult) :=
    match r with Silent => true | _ => false end in
  match coverageFileType c (snd entry) with
  | JACOCO => silent (parseContentJacoco c (snd entry))
  | COBERTURA => silent (parseContentCobertura c (snd entry))
  | LCOV => silent (source c (snd entry))
  | _ => false
  end.

(** The parser answers, and what it reports, if an error, is an [Error]
    object. *)
Definition answersWell (c : Collaborators) (entry : string * string) : bool :=
  negb (neverCallsBack c entry) &&
  match reportedError c entry with
  | None | Some (ErrorObject _) => true
  | Some _ => false
  end.

(** The name under which the extractor of each format logs. *)
Definition systemOf (type : CoverageType) : string :=
  match type with
  | CLOVER => "clover-parse"
  | JACOCO => "jacoco-parse"
  | COBERTURA => "cobertura-parse"
  | LCOV => "lcov-parse"
  | NONE => ""
  end.

(** The first line [handleError] appends for a parse failure of the file
    [coverageFilename]. *)
Definition errorLine (now system coverageFilename : string) (err : Error) : string :=
  "[" +:+ now +:+ "][coverageparser][" +:+ system +:+ "]: Error: " +:+
  ("filename: " +:+ coverageFilename +:+ " " +:+ message err).

(** The second line [handleError] appends, when the error has a stack. *)
Definition stackLine (now system stackTrace : string) : string :=
  "[" +:+ now +:+ "][coverageparser][" +:+ system +:+ "]: Stacktrace: " +:+ stackTrace.

(** The lines logged for an entry: those of the [Error] object its parser
    reports, under the name of the extractor of the detected format; none
    when the parse succeeds or the error is not an object. *)
Definition logLines (c : Collaborators) (entry : string * string) : list string :=
  match reportedError c entry with
  | Some (ErrorObject err) =>
      let system := systemOf (coverageFileType c (snd entry)) in
      errorLine (dateNow c) system (fst entry) err ::
      match stack err with
      | Some stackTrace =>
          if decide (stackTrace = "") then []
          else [stackLine (dateNow c) system stackTrace]
      | None => []
      end
  | _ => []
  end.

End MergeSpec.

(** ** Notions used to state the properties of the files loader *)

Module LoaderSpec.

Import FilesLoader.

(** The warning shown for a manual path that does not exist. *)
Definition missingWarning (file : string) : string :=
  "manualCoverageFilePaths contains " +:+ quote +:+ file +:+ quote
    +:+ " which does not exist!".

(** The warning shown for a failing [glob]. *)
Definition globWarning (err : string) : string :=
  "An error occured while looking for the coverage file " +:+ err.

(** The warning shown when the search finds nothing. *)
Definition notFoundWarning (fileNames : list string) : string :=
  "Could not find a Coverage file! Searched for " +:+ String.concat ", " fileNames.

(** [glob] matches the file for this file name in this workspace folder. *)
Definition globMatches (configStore : Config) (host : Host)
    (fileName workspaceFolder file : string) : Prop :=
  exists files,
    glob host (coverageBaseDir configStore +:+ "/" +:+ fileName)
         workspaceFolder (ignoredPathGlobs configStore) = Matches (Some files) /\
    In file files.

(** The file is matched for one of the file names in one of the workspace
    folders. *)
Definition foundInWorkspace (configStore : Config) (host : Host)
    (fileNames : list string) (file : string) : Prop :=
  exists folders fileName workspaceFolder,
    workspaceFolders host = Some folders /\
    In fileName fileNames /\ In workspaceFolder folders /\
    globMatches configStore host fileName workspaceFolder file.

(** [glob] fails with this warning for one of the file names in one of the
    workspace folders. *)
Definition failsInWorkspace (configStore : Config) (host : Host)
    (fileNames : list string) (warning : string) : Prop :=
  exists folders fileName workspaceFolder err,
    workspaceFolders host = Some folders /\
    In fileName fileNames /\ In workspaceFolder folders /\
    glob host (coverageBaseDir configStore +:+ "/" +:+ fileName)
         workspaceFolder (ignoredPathGlobs configStore) = GlobFails err /\
    warning = globWarning err.

End LoaderSpec.


(** ** Concrete sections used in the examples below *)

Module Examples.

(** The section of the classification example: lines
    [[{line:1,hit:2},{line:2,hit:0}]], branches
    [[{line:1,block:0,branch:0,taken:0}]]. *)
Definition exampleSection : CovSection :=
  {| title := ""; file := "src/a.ts";
     lines := Some (Lines.mk [LineDetail.mk 1 2; LineDetail.mk 2 0] 1 2);
     functions := None;
     branches := Some (Branches.mk [BranchDetail.mk 1 0 0 0] 0 1) |}.

(** Line 1 executed, with a branch that was not taken. *)
Definition hitUntaken : CovSection :=
  {| title := "run1"; file := "src/a.ts";
     lines := Some (Lines.mk [LineDetail.mk 1 1] 1 1);
     functions := None;
     branches := Some (Branches.mk [BranchDetail.mk 1 0 0 0] 0 1) |}.

(** Line 1 not executed, no branch data. *)
Definition zeroHits : CovSection :=
  {| title := "run2"; file := "src/a.ts";
     lines := Some (Lines.mk [LineDetail.mk 1 0] 0 1);
     functions := None;
     branches := None |}.

(** Line 1 executed, no branch data. *)
Definition hitOnly : CovSection :=
  {| title := "run3"; file := "src/a.ts";
     lines := Some (Lines.mk [LineDetail.mk 1 1] 1 1);
     functions := None;
     branches := None |}.

(** A branch of line 1 not taken, no line data. *)
Definition untakenOnly : CovSection :=
  {| title := "run4"; file := "src/a.ts";
     lines := None;
     functions := None;
     branches := Some (Branches.mk [BranchDetail.mk 1 0 0 0] 0 1) |}.

(** Line 5 was executed by three earlier runs. *)
Definition sectionA : CovSection :=
  {| title := "t"; file := "src/a.ts";
     lines := Some (Lines.mk [LineDetail.mk 5 3; LineDetail.mk 6 0] 1 2);
     functions := None;
     branches := Some (Branches.mk [BranchDetail.mk 5 0 0 1] 1 1) |}.

(** The same file in another run: line 5 executed seven times, line 7 new. *)
Definition sectionB : CovSection :=
  {| title := "t"; file := "src/a.ts";
     lines := Some (Lines.mk [LineDetail.mk 5 7; LineDetail.mk 6 0; LineDetail.mk 7 1] 2 3);
     functions := None;
     branches := None |}.

(** A section that lists line 2 twice. *)
Definition repeatedLine : CovSection :=
  {| title := "t"; file := "src/a.ts";
     lines := Some (Lines.mk [LineDetail.mk 2 1; LineDetail.mk 2 0] 1 1);
     functions := None;
     branches := None |}.

(** Collaborators for a run over two files: the content ["clover"] is
    detected as Clover and its parser rejects, ["jacoco"] is detected as
    JaCoCo and its parser calls back with an error, ["cobertura"] is detected
    as Cobertura and its parser raises, ["lcov"] is detected as LCOV and
    parses to [sectionA]; anything else is not recognised. *)
Definition brokenInput : CoverageParser.Error :=
  CoverageParser.mkError "Error" "unexpected end of input" None.

Definition exampleCollaborators : CoverageParser.Collaborators :=
  {| CoverageParser.coverageFileType := fun content =>
       if decide (content = "clover") then CoverageParser.CLOVER
       else if decide (content = "jacoco") then CoverageParser.JACOCO
       else if decide (content = "cobertura") then CoverageParser.COBERTURA
       else if decide (content = "lcov") then CoverageParser.LCOV
       else CoverageParser.NONE;
     CoverageParser.parseContentClover := fun _ =>
       CoverageParser.Throws (CoverageParser.ErrorObject brokenInput);
     CoverageParser.parseContentJacoco := fun _ =>
       CoverageParser.CallsBack (CoverageParser.ErrorObject brokenInput) [];
     CoverageParser.parseContentCobertura := fun _ =>
       CoverageParser.Raises (CoverageParser.ErrorObject brokenInput);
     CoverageParser.source := fun _ =>
       CoverageParser.CallsBack CoverageParser.ErrorNone [sectionA];
     CoverageParser.dateNow := "1700000000000" |}.

(** Collaborators of a run over LCOV files: every content that is not
    empty is detected as LCOV, the content ["TN:"] parses to [sectionA], and
    for any other content [source] calls back with the string
    ['Failed to parse string'], the error of lcov-parse for a text it cannot
    parse. *)
Definition lcovCollaborators : CoverageParser.Collaborators :=
  {| CoverageParser.coverageFileType := fun content =>
       if decide (content = "") then CoverageParser.NONE else CoverageParser.LCOV;
     CoverageParser.parseContentClover := fun _ => CoverageParser.Returns [];
     CoverageParser.parseContentJacoco := fun _ => CoverageParser.Silent;
     CoverageParser.parseContentCobertura := fun _ => CoverageParser.Silent;
     CoverageParser.source := fun content =>
       if decide (content = "TN:")
       then CoverageParser.CallsBack CoverageParser.ErrorNone [sectionA]
       else CoverageParser.CallsBack
              (CoverageParser.ErrorString "Failed to parse string") [];
     CoverageParser.dateNow := "1700000000000" |}.

(** Decoration types with distinct keys, and an editor that still shows the
    ranges of an earlier render. *)
Definition exampleConfig : Renderer.Config :=
  Renderer.mkConfig "full" "none" "partial".

Definition staleEditor : Renderer.TextEditor :=
  Renderer.mkTextEditor "src/a.ts"
    {[ "full" := [Renderer.mkRange 7 0 7 0];
       "none" := [Renderer.mkRange 8 0 8 0];
       "other" := [Renderer.mkRange 9 0 9 0] ]}.

(** A third run of the same file, with branch data. *)
Definition sectionC : CovSection :=
  {| title := "t"; file := "src/a.ts";
     lines := Some (Lines.mk [LineDetail.mk 5 2; LineDetail.mk 8 0] 1 2);
     functions := None;
     branches :=
       Some (Branches.mk [BranchDetail.mk 5 0 0 3; BranchDetail.mk 5 0 1 0] 1 2) |}.

(** A host with two workspace folders: [glob] finds an lcov file in the
    first, fails in the second; only [/abs/lcov.info] exists and can be
    read. *)
Definition exampleHost : FilesLoader.Host :=
  {| FilesLoader.existsSync := fun path => bool_decide (path = "/abs/lcov.info");
     FilesLoader.readFile := fun path =>
       if decide (path = "/abs/lcov.info") then Some "TN:" else None;
     FilesLoader.glob := fun pattern cwd _ =>
       if decide (cwd = "/ws1") then
         if decide (pattern = "**/lcov.info")
         then FilesLoader.Matches (Some ["/ws1/coverage/lcov.info"])
         else FilesLoader.Matches (Some [])
       else FilesLoader.GlobFails "EACCES";
     FilesLoader.workspaceFolders := Some ["/ws1"; "/ws2"] |}.

Definition searchConfig : FilesLoader.Config :=
  FilesLoader.mkConfig [] ["lcov.info"; "cov.xml"] "**" "**/node_modules/**".

Definition manualConfig : FilesLoader.Config :=
  FilesLoader.mkConfig ["/abs/lcov.info"; "/abs/gone.xml"] ["lcov.info"] "**"
    "**/node_modules/**".

End Examples.

Import Renderer.

(** * Properties of the classifier *)

Section ClassifierSteps.

Implicit Types (sets : CoverageSets) (x : Z).

(** ** One line detail *)

Lemma lineCallback_partial sets d :
  partial (lineCallback sets d) = partial sets.
Proof.
  unfold lineCallback. destruct (0 <? LineDetail.hit d); [done|].
  by case_decide.
Qed.

Lemma lineCallback_full sets d x :
  x ∈ full (lineCallback sets d) <->
  x ∈ full sets \/ (0 < LineDetail.hit d /\ x = LineDetail.line d - 1).
Proof.
  unfold lineCallback. destruct (Z.ltb_spec 0 (LineDetail.hit d)); simpl.
  - set_solver.
  - case_decide; simpl; split; try tauto; intros [?|[? _]]; auto; lia.
Qed.

Lemma lineCallback_full_none sets d :
  full sets ## none sets ->
  full (lineCallback sets d) ## none (lineCallback sets d).
Proof.
  unfold lineCallback. destruct (0 <? LineDetail.hit d); simpl.
  - set_solver.
  - case_decide; simpl; set_solver.
Qed.

(** ** One branch detail (already filtered: [taken === 0], [line > 0]) *)

Lemma branchCallback_none sets d :
  none (branchCallback sets d) = none sets.
Proof. unfold branchCallback. by case_decide. Qed.

Lemma branchCallback_full sets d x :
  x ∈ full (branchCallback sets d) <->
  x ∈ full sets /\ x <> BranchDetail.line d - 1.
Proof. unfold branchCallback. case_decide; simpl; set_solver. Qed.

Lemma branchCallback_partial sets d x :
  x ∈ partial (branchCallback sets d) <->
  x ∈ partial sets \/ (x ∈ full sets /\ x = BranchDetail.line d - 1).
Proof. unfold branchCallback. case_decide; simpl; set_solver. Qed.

(** ** The two passes over lists of details *)

Lemma linePass_partial l sets :
  partial (fold_left lineCallback l sets) = partial sets.
Proof.
  revert sets. induction l as [|d l IH]; intros sets; simpl; [done|].
  by rewrite IH, lineCallback_partial.
Qed.

Lemma linePass_full l sets x :
  x ∈ full (fold_left lineCallback l sets) <->
  x ∈ full sets \/
  exists d, In d l /\ 0 < LineDetail.hit d /\ x = LineDetail.line d - 1.
Proof.
  revert sets. induction l as [|d l IH]; intros sets; simpl.
  - split; [auto|]. intros [?|(d & [] & _)]; done.
  - rewrite IH, lineCallback_full. split.
    + intros [[?|?]|(d' & ? & ?)]; eauto 6.
    + intros [?|(d' & [<-|?] & ?)]; eauto 6.
Qed.

Lemma linePass_full_none l sets :
  full sets ## none sets ->
  full (fold_left lineCallback l sets) ## none (fold_left lineCallback l sets).
Proof.
  revert sets. induction l as [|d l IH]; intros sets H; simpl; [done|].
  by apply IH, lineCallback_full_none.
Qed.

Lemma branchPass_none l sets :
  none (fold_left branchCallback l sets) = none sets.
Proof.
  revert sets. induction l as [|d l IH]; intros sets; simpl; [done|].
  by rewrite IH, branchCallback_none.
Qed.

Lemma branchPass_full l sets x :
  x ∈ full (fold_left branchCallback l sets) <->
  x ∈ full sets /\ ~ exists d, In d l /\ x = BranchDetail.line d - 1.
Proof.
  revert sets. induction l as [|d l IH]; intros sets; simpl.
  - split; [|tauto]. intros ?; split; [done|]. intros (d & [] & _).
  - rewrite IH, branchCallback_full. split.
    + intros [[? ?] Hn]. split; [done|].
      intros (d' & [<-|?] & ?); [done|]. apply Hn; eauto.
    + intros [? Hn]. repeat split; [done| |].
      * intros ->. apply Hn; eauto.
      * intros (d' & ? & ?). apply Hn; eauto.
Qed.

Lemma branchPass_partial l sets x :
  x ∈ partial (fold_left branchCallback l sets) <->
  x ∈ partial sets \/
  (x ∈ full sets /\ exists d, In d l /\ x = BranchDetail.line d - 1).
Proof.
  revert sets. induction l as [|d l IH]; intros sets; simpl.
  - split; [auto|]. intros [?|[_ (d & [] & _)]]; done.
  - rewrite IH, branchCallback_partial, branchCallback_full. split.
    + intros [[?|[? ?]]|[[? ?] (d' & ? & ?)]]; eauto 7.
    + intros [?|[? (d' & [<-|?] & ?)]]; [auto|auto|].
      destruct (decide (x = BranchDetail.line d - 1)); eauto 7.
Qed.

End ClassifierSteps.

Section ClassifierSections.

Implicit Types (sets : CoverageSets) (s : CovSection) (x : Z).

(** ** One section: line pass *)

Lemma filterLineCoverage_partial s sets :
  partial (filterLineCoverage s sets) = partial sets.
Proof.
  unfold filterLineCoverage. destruct (lines s); [|done].
  apply linePass_partial.
Qed.

Lemma filterLineCoverage_full s sets x :
  x ∈ full (filterLineCoverage s sets) <->
  x ∈ full sets \/ reportsHit s x = true.
Proof.
  unfold filterLineCoverage, reportsHit. destruct (lines s) as [l|].
  - rewrite linePass_full, existsb_exists.
    apply or_iff_compat_l. split.
    + intros (d & [Hin Hpos]%filter_In & Hhit & ->). exists d. split; [done|].
      rewrite !andb_true_iff. repeat split; [done|lia|lia].
    + intros (d & Hin & [[Hpos Heq]%andb_true_iff Hhit]%andb_true_iff).
      exists d. rewrite filter_In. repeat split; [done|done|lia|lia].
  - split; [auto|]. by intros [?|?].
Qed.

Lemma filterLineCoverage_full_none s sets :
  full sets ## none sets ->
  full (filterLineCoverage s sets) ## none (filterLineCoverage s sets).
Proof.
  unfold filterLineCoverage. destruct (lines s); [|done].
  apply linePass_full_none.
Qed.

(** ** One section: branch pass *)

Lemma untaken_details s x :
  reportsUntaken s x = true <->
  exists b d, branches s = Some b /\
    In d (List.filter
            (fun detail => (BranchDetail.taken detail =? 0)
                           && (0 <? BranchDetail.line detail))
            (Branches.details b)) /\
    x = BranchDetail.line d - 1.
Proof.
  unfold reportsUntaken. destruct (branches s) as [b|].
  - rewrite existsb_exists. split.
    + intros (d & Hin & [Hf Heq]%andb_true_iff). exists b, d.
      rewrite filter_In. repeat split; [done|done|lia].
    + intros (b' & d & [= <-] & [Hin Hf]%filter_In & ->). exists d.
      split; [done|]. rewrite andb_true_iff. split; [done|lia].
  - split; [done|]. by intros (b & d & ? & _).
Qed.

Lemma filterBranchCoverage_none s sets :
  none (filterBranchCoverage s sets) = none sets.
Proof.
  unfold filterBranchCoverage. destruct (branches s); [|done].
  apply branchPass_none.
Qed.

Lemma filterBranchCoverage_full s sets x :
  x ∈ full (filterBranchCoverage s sets) <->
  x ∈ full sets /\ reportsUntaken s x = false.
Proof.
  rewrite <- not_true_iff_false, untaken_details.
  unfold filterBranchCoverage. destruct (branches s) as [b|].
  - rewrite branchPass_full. apply and_iff_compat_l. split.
    + intros Hn (b' & d & [= <-] & ? & ?). apply Hn; eauto.
    + intros Hn (d & ? & ?). apply Hn; eauto.
  - split; [|tauto]. intros ?; split; [done|]. by intros (b & d & ? & _).
Qed.

Lemma filterBranchCoverage_partial s sets x :
  x ∈ partial (filterBranchCoverage s sets) <->
  x ∈ partial sets \/ (x ∈ full sets /\ reportsUntaken s x = true).
Proof.
  rewrite untaken_details.
  unfold filterBranchCoverage. destruct (branches s) as [b|].
  - rewrite branchPass_partial. apply or_iff_compat_l, and_iff_compat_l. split.
    + intros (d & ? & ?); eauto.
    + intros (b' & d & [= <-] & ? & ?); eauto.
  - split; [auto|]. intros [?|[_ (b & d & ? & _)]]; done.
Qed.

(** ** One section: both passes, as [filterCoverage] runs them *)

Lemma filterCoverage_snoc l s sets :
  filterCoverage (l ++ [s]) sets = sectionCallback (filterCoverage l sets) s.
Proof. unfold filterCoverage. by rewrite fold_left_app. Qed.

Lemma classify_snoc l s : classify (l ++ [s]) = sectionCallback (classify l) s.
Proof. apply filterCoverage_snoc. Qed.

Lemma sectionCallback_full sets s x :
  x ∈ full (sectionCallback sets s) <->
  (x ∈ full sets \/ reportsHit s x = true) /\ reportsUntaken s x = false.
Proof.
  unfold sectionCallback.
  by rewrite filterBranchCoverage_full, filterLineCoverage_full.
Qed.

Lemma sectionCallback_partial sets s x :
  x ∈ partial (sectionCallback sets s) <->
  x ∈ partial sets \/
  ((x ∈ full sets \/ reportsHit s x = true) /\ reportsUntaken s x = true).
Proof.
  unfold sectionCallback.
  by rewrite filterBranchCoverage_partial, filterLineCoverage_full,
    filterLineCoverage_partial.
Qed.

Lemma sectionCallback_covered sets s x :
  x ∈ full (sectionCallback sets s) \/ x ∈ partial (sectionCallback sets s) <->
  x ∈ full sets \/ x ∈ partial sets \/ reportsHit s x = true.
Proof.
  rewrite sectionCallback_full, sectionCallback_partial.
  destruct (reportsUntaken s x); intuition congruence.
Qed.

Lemma sectionCallback_full_none sets s :
  full sets ## none sets ->
  full (sectionCallback sets s) ## none (sectionCallback sets s).
Proof.
  intros H%(filterLineCoverage_full_none s). unfold sectionCallback.
  rewrite filterBranchCoverage_none. intros x Hf Hn.
  apply filterBranchCoverage_full in Hf as [Hf _]. by apply (H x).
Qed.

(** ** Sequences of sections *)

Lemma classify_full_none l : full (classify l) ## none (classify l).
Proof.
  induction l as [|s l IH] using rev_ind.
  - set_solver.
  - rewrite classify_snoc. by apply sectionCallback_full_none.
Qed.

Lemma classify_covered l x :
  x ∈ full (classify l) \/ x ∈ partial (classify l) <->
  exists s, In s l /\ reportsHit s x = true.
Proof.
  induction l as [|s l IH] using rev_ind.
  - split; [set_solver|]. by intros (s & [] & _).
  - rewrite classify_snoc, sectionCallback_covered. split.
    + intros [Hf|[Hp|?]].
      * destruct (proj1 IH (or_introl Hf)) as (s' & ? & ?).
        exists s'. rewrite in_app_iff. auto.
      * destruct (proj1 IH (or_intror Hp)) as (s' & ? & ?).
        exists s'. rewrite in_app_iff. auto.
      * exists s. rewrite in_app_iff. simpl. auto.
    + intros (s' & [?|[<-|[]]]%in_app_iff & ?); [|auto].
      destruct (proj2 IH) as [?|?]; eauto.
Qed.

Lemma classify_single s : pairwiseDisjoint (classify [s]).
Proof.
  change (classify [s]) with (sectionCallback emptySets s).
  repeat split; intros x.
  - rewrite sectionCallback_full, sectionCallback_partial. simpl.
    intros [_ ?] [?|[_ ?]]; [set_solver|congruence].
  - apply sectionCallback_full_none. set_solver.
  - unfold sectionCallback. rewrite filterBranchCoverage_partial,
      filterBranchCoverage_none, filterLineCoverage_partial. simpl.
    intros [?|[Hf _]] Hn; [set_solver|].
    by apply (filterLineCoverage_full_none s emptySets ltac:(set_solver) x).
Qed.

End ClassifierSections.

(** * The classifier on sequences of sections *)

Section ClassifierClaims.

Import Examples.

Implicit Types (sections : list CovSection) (x : Z).

Lemma classify_partial_untaken sections x :
  x ∈ partial (classify sections) ->
  exists s, In s sections /\ reportsUntaken s x = true.
Proof.
  induction sections as [|s l IH] using rev_ind.
  - set_solver.
  - rewrite classify_snoc, sectionCallback_partial.
    intros [(s' & ? & ?)%IH|[_ ?]].
    + exists s'. rewrite in_app_iff. auto.
    + exists s. rewrite in_app_iff. simpl. auto.
Qed.

Lemma classify_partial_later sections i j si sj x :
  sections !! i = Some si -> sections !! j = Some sj -> (i <= j)%nat ->
  reportsHit si x = true -> reportsUntaken sj x = true ->
  x ∈ partial (classify sections).
Proof.
  revert i j. induction sections as [|s l IH] using rev_ind;
    intros i j Hi Hj Hij Hhit Hunt; [done|].
  rewrite classify_snoc, sectionCallback_partial.
  pose proof (lookup_lt_Some _ _ _ Hj) as Hlen.
  rewrite length_app in Hlen. simpl in Hlen.
  destruct (decide (j < length l)%nat) as [Hlt|Hge].
  - left. apply (IH i j); [|by rewrite lookup_app_l in Hj|done..].
    rewrite lookup_app_l in Hi; [done|lia].
  - assert (j = length l) as -> by lia.
    rewrite list_lookup_middle in Hj by done. injection Hj as ->.
    destruct (decide (i = length l)) as [->|Hne].
    + rewrite list_lookup_middle in Hi by done. injection Hi as ->. auto.
    + rewrite lookup_app_l in Hi by lia.
      assert (x ∈ full (classify l) \/ x ∈ partial (classify l)) as [?|?]; [|auto..].
      apply classify_covered. exists si. split; [|done].
      apply list_elem_of_In. by eapply list_elem_of_lookup_2.
Qed.

Lemma classify_not_full_after sections j sj x :
  sections !! j = Some sj -> reportsUntaken sj x = true ->
  (forall k sk, (j < k)%nat -> sections !! k = Some sk -> reportsHit sk x = false) ->
  x ∉ full (classify sections).
Proof.
  revert j. induction sections as [|s l IH] using rev_ind;
    intros j Hj Hunt Hlater; [done|].
  rewrite classify_snoc, sectionCallback_full.
  pose proof (lookup_lt_Some _ _ _ Hj) as Hlen.
  rewrite length_app in Hlen. simpl in Hlen.
  destruct (decide (j < length l)%nat) as [Hlt|Hge].
  - intros [[Hf|Hh] _].
    + revert Hf. apply (IH j); [by rewrite lookup_app_l in Hj|done|].
      intros k sk Hk Hsk. apply (Hlater k); [done|].
      rewrite lookup_app_l; [done|]. by eapply lookup_lt_Some.
    + rewrite (Hlater (length l) s) in Hh; [done|done|].
      by apply list_lookup_middle.
  - assert (j = length l) as -> by lia.
    rewrite list_lookup_middle in Hj by done. injection Hj as ->.
    intros [_ ?]. congruence.
Qed.

(** ** Disjointness *)

(** C1, as stated, fails: after [hitUntaken] has moved line 0 to [partial],
    [zeroHits] adds it to [none] (the guard looks at [full] only), and
    [hitOnly] adds it to [full] again. *)
Lemma classify_disjoint_counterexample :
  classify [hitUntaken; zeroHits] = {| full := ∅; partial := {[0]}; none := {[0]} |} /\
  ~ pairwiseDisjoint (classify [hitUntaken; zeroHits]) /\
  classify [hitUntaken; hitOnly] = {| full := {[0]}; partial := {[0]}; none := ∅ |} /\
  ~ pairwiseDisjoint (classify [hitUntaken; hitOnly]).
Proof.
  assert (classify [hitUntaken; zeroHits]
          = {| full := ∅; partial := {[0]}; none := {[0]} |}) as E1
    by (vm_compute; reflexivity).
  assert (classify [hitUntaken; hitOnly]
          = {| full := {[0]}; partial := {[0]}; none := ∅ |}) as E2
    by (vm_compute; reflexivity).
  rewrite E1, E2. unfold pairwiseDisjoint. simpl.
  repeat split; set_solver.
Qed.

(** C1 (amended): for every sequence of sections the final [full] and [none]
    are disjoint; the three sets are pairwise disjoint when no section or
    exactly one section is classified. *)
Theorem classify_disjoint :
  (forall sections, full (classify sections) ## none (classify sections)) /\
  (forall s, pairwiseDisjoint (classify [s])) /\
  pairwiseDisjoint (classify []).
Proof.
  split; [exact classify_full_none|]. split; [exact classify_single|].
  repeat split; set_solver.
Qed.

(** ** Monotonic coverage *)

(** C2, as stated, fails: line 0 is reported with [hit > 0] by [hitUntaken]
    and ends in [none] (and in [partial]). *)
Lemma classify_monotonic_counterexample :
  In hitUntaken [hitUntaken; zeroHits] /\
  reportsHit hitUntaken 0 = true /\
  0 ∈ none (classify [hitUntaken; zeroHits]).
Proof.
  split; [simpl; auto|]. split; [reflexivity|].
  apply (bool_decide_unpack _). vm_compute. exact I.
Qed.

(** C2 (amended): a line reported with [hit > 0] by a processed section ends
    in [full] or [partial]; it can be in the final [none] only when it is in
    [partial] and not in [full], and it is not in [none] when no processed
    section has a branch detail with [taken == 0] for it. *)
Theorem classify_monotonic sections s x :
  In s sections -> reportsHit s x = true ->
  (x ∈ full (classify sections) \/ x ∈ partial (classify sections)) /\
  (x ∈ none (classify sections) ->
     x ∈ partial (classify sections) /\ x ∉ full (classify sections)) /\
  ((forall s', In s' sections -> reportsUntaken s' x = false) ->
     x ∈ full (classify sections) /\ x ∉ none (classify sections)).
Proof.
  intros Hin Hhit.
  assert (x ∈ full (classify sections) \/ x ∈ partial (classify sections)) as Hcov
    by (apply classify_covered; eauto).
  pose proof (classify_full_none sections x) as Hdisj.
  split; [done|]. split.
  - intros Hn. destruct Hcov as [Hf|Hp]; [by destruct (Hdisj Hf Hn)|].
    split; [done|]. intros Hf. exact (Hdisj Hf Hn).
  - intros Hno.
    assert (x ∉ partial (classify sections)) as Hnp.
    { intros (s' & Hs' & Hu)%classify_partial_untaken.
      rewrite (Hno s' Hs') in Hu. discriminate. }
    destruct Hcov as [Hf|Hp]; [|done]. split; [done|].
    intros Hn. exact (Hdisj Hf Hn).
Qed.

Lemma classify_monotonic_witness :
  (0 ∈ full (classify [zeroHits; hitOnly]) \/
   0 ∈ partial (classify [zeroHits; hitOnly])) /\
  (0 ∈ none (classify [zeroHits; hitOnly]) ->
     0 ∈ partial (classify [zeroHits; hitOnly]) /\
     0 ∉ full (classify [zeroHits; hitOnly])) /\
  ((forall s', In s' [zeroHits; hitOnly] -> reportsUntaken s' 0 = false) ->
     0 ∈ full (classify [zeroHits; hitOnly]) /\
     0 ∉ none (classify [zeroHits; hitOnly])).
Proof.
  apply (classify_monotonic [zeroHits; hitOnly] hitOnly 0).
  - simpl. auto.
  - reflexivity.
Defined.

(** ** Branch downgrade *)

(** C3, as stated, fails in two ways.  A later section that reports the line
    as hit puts it back into [full]; and an untaken branch seen before any
    section reported the line as hit changes nothing. *)
Lemma classify_downgrade_counterexample :
  (reportsHit hitUntaken 0 = true /\
   reportsUntaken hitUntaken 0 = true /\
   0 ∈ full (classify [hitUntaken; hitOnly])) /\
  (reportsHit hitOnly 0 = true /\
   reportsUntaken untakenOnly 0 = true /\
   classify [untakenOnly; hitOnly] = {| full := {[0]}; partial := ∅; none := ∅ |}).
Proof.
  repeat split; vm_compute; reflexivity.
Qed.

(** C3 (amended): if a processed section reports the line with [hit > 0] and
    that section or a later one has a branch detail with [taken == 0] for
    it, the line ends in [partial]; it is then absent from the final [full]
    when no section processed after the one with the untaken branch reports
    the line with [hit > 0]. *)
Theorem classify_downgrade sections (i j : nat) si sj x :
  sections !! i = Some si -> sections !! j = Some sj -> (i <= j)%nat ->
  reportsHit si x = true -> reportsUntaken sj x = true ->
  x ∈ partial (classify sections) /\
  ((forall k sk, (j < k)%nat -> sections !! k = Some sk -> reportsHit sk x = false) ->
   x ∉ full (classify sections)).
Proof.
  intros Hi Hj Hij Hhit Hunt. split.
  - by apply (classify_partial_later sections i j si sj).
  - by apply (classify_not_full_after sections j sj).
Qed.

Lemma classify_downgrade_witness :
  0 ∈ partial (classify [hitOnly; hitUntaken; zeroHits]) /\
  ((forall k sk, (1 < k)%nat -> [hitOnly; hitUntaken; zeroHits] !! k = Some sk ->
      reportsHit sk 0 = false) ->
   0 ∉ full (classify [hitOnly; hitUntaken; zeroHits])).
Proof.
  apply (classify_downgrade [hitOnly; hitUntaken; zeroHits] 0 1 hitOnly hitUntaken 0).
  - reflexivity.
  - reflexivity.
  - lia.
  - reflexivity.
  - reflexivity.
Defined.

(** A single section is the case of the spec's own wording: hit and untaken
    branch in the section classified alone. *)
Lemma classify_downgrade_single s x :
  reportsHit s x = true -> reportsUntaken s x = true ->
  x ∈ partial (classify [s]) /\ x ∉ full (classify [s]).
Proof.
  intros Hhit Hunt. split.
  - by apply (classify_partial_later [s] 0 0 s s).
  - apply (classify_not_full_after [s] 0 s); [done|done|].
    intros [|k] sk Hk Hsk; [lia|]. simpl in Hsk. discriminate.
Qed.

(** ** The classification example *)

(** C8: the section with line details [[{line:1,hit:2},{line:2,hit:0}]] and
    branch details [[{line:1,block:0,branch:0,taken:0}]], classified alone,
    gives [full = {}], [partial = {0}], [none = {1}]. *)
Theorem classify_example :
  classify [exampleSection] = {| full := ∅; partial := {[0]}; none := {[1]} |}.
Proof. vm_compute. reflexivity. Qed.

(** ** Origin of partial lines *)

(** A branch detail adds a line to [partial] only by moving it out of
    [full], and a line detail adds a line to [full] only when it reports
    [hit > 0]. *)
Lemma partial_only_from_full sets d x :
  x ∈ partial (branchCallback sets d) ->
  x ∈ partial sets \/ (x ∈ full sets /\ x ∉ full (branchCallback sets d)).
Proof.
  rewrite branchCallback_partial, branchCallback_full. intros [?|[? ->]]; [auto|].
  right. split; [done|]. by intros [_ ?].
Qed.

Lemma full_only_from_hit sets d x :
  x ∈ full (lineCallback sets d) ->
  x ∈ full sets \/ (0 < LineDetail.hit d /\ x = LineDetail.line d - 1).
Proof. apply lineCallback_full. Qed.

(** C10: every line of the final [partial] was reported with [hit > 0] by a
    processed section. *)
Theorem classify_partial_was_hit sections x :
  x ∈ partial (classify sections) ->
  exists s, In s sections /\ reportsHit s x = true.
Proof. intros Hp. apply classify_covered. by right. Qed.

Lemma classify_partial_was_hit_witness :
  exists s, In s [exampleSection] /\ reportsHit s 0 = true.
Proof.
  apply (classify_partial_was_hit [exampleSection] 0).
  apply (bool_decide_unpack _). vm_compute. exact I.
Defined.

End ClassifierClaims.

(** * Properties of the section merger *)

Import CoverageParser MergeSpec.

(** Equality of the tuples of closed-over variables, component by component. *)
Ltac tuple_eq :=
  repeat match goal with
         | |- (_, _) = (_, _) => apply (f_equal2 pair)
         end;
  try done; try lia.

Section LineMerge.

Implicit Types (existing incoming : list LineDetail.t) (d : LineDetail.t).

Lemma lookup_map {A B : Type} (f : A -> B) (l : list A) (k : nat) :
  List.map f l !! k = f <$> l !! k.
Proof.
  revert k. induction l as [|a l IH]; intros [|k]; simpl; done.
Qed.

Lemma elem_of_lineHits incoming n :
  n ∈ lineHits incoming <-> incomingReportsHit incoming n = true.
Proof.
  unfold lineHits, incomingReportsHit.
  rewrite elem_of_list_to_set, list_elem_of_In, in_map_iff, existsb_exists.
  split.
  - intros (r & <- & [Hin Hhit]%filter_In). exists r. split; [done|].
    rewrite andb_true_iff. split; [lia|done].
  - intros (r & Hin & [Hl Hhit]%andb_true_iff). exists r.
    rewrite filter_In. split; [lia|done].
Qed.

Lemma existingLineCallback_spec incoming hit found seen d :
  existingLineCallback (lineHits incoming) (hit, found, seen) d =
  ((if 0 <? LineDetail.hit (mergedLine incoming d) then hit + 1 else hit,
    found + 1, {[LineDetail.line d]} ∪ seen),
   mergedLine incoming d).
Proof.
  unfold existingLineCallback, mergedLine.
  pose proof (elem_of_lineHits incoming (LineDetail.line d)) as H.
  case_decide as Hd.
  - by rewrite (proj1 H Hd).
  - destruct (incomingReportsHit incoming (LineDetail.line d)); [|done].
    by destruct Hd; apply H.
Qed.

Lemma existing_pass incoming existing hit found seen :
  mapState (existingLineCallback (lineHits incoming)) (hit, found, seen) existing =
  ((hit + Z.of_nat (positiveLines (List.map (mergedLine incoming) existing)),
    found + Z.of_nat (length existing),
    list_to_set (List.map LineDetail.line existing) ∪ seen),
   List.map (mergedLine incoming) existing).
Proof.
  revert hit found seen. induction existing as [|d l IH]; intros hit found seen.
  - cbn. by rewrite !Z.add_0_r, (left_id_L ∅ (∪)).
  - cbn [mapState]. rewrite existingLineCallback_spec, IH.
    unfold positiveLines. cbn [List.map List.filter list_to_set].
    rewrite (assoc_L (∪)), (comm_L (∪) (list_to_set _) {[_]}).
    destruct (0 <? LineDetail.hit (mergedLine incoming d)); cbn [length];
      tuple_eq.
Qed.

Lemma incoming_pass l hit found details :
  fold_left incomingLineCallback l (hit, found, details) =
  (hit + Z.of_nat (positiveLines l), found + Z.of_nat (length l), details ++ l).
Proof.
  revert hit found details. induction l as [|d l IH]; intros hit found details.
  - cbn. by rewrite !Z.add_0_r, app_nil_r.
  - cbn [fold_left incomingLineCallback]. rewrite IH. unfold positiveLines.
    cbn [List.filter]. rewrite <- app_assoc.
    destruct (0 <? LineDetail.hit d); cbn [length]; tuple_eq.
Qed.

Lemma positiveLines_app l1 l2 :
  positiveLines (l1 ++ l2) = (positiveLines l1 + positiveLines l2)%nat.
Proof. unfold positiveLines. by rewrite List.filter_app, length_app. Qed.

(** The merged line data in closed form. *)
Lemma mergeLineDetails_spec existing incoming :
  let details :=
    List.map (mergedLine incoming) existing ++ newLines existing incoming in
  mergeLineDetails existing incoming =
  Lines.mk details (Z.of_nat (positiveLines details)) (Z.of_nat (length details)).
Proof.
  unfold mergeLineDetails. rewrite existing_pass.
  rewrite (right_id_L ∅ (∪)). rewrite incoming_pass. fold (newLines existing incoming).
  simpl. rewrite positiveLines_app, !length_app, length_map. f_equal; lia.
Qed.

Lemma mergedLine_line incoming d :
  LineDetail.line (mergedLine incoming d) = LineDetail.line d.
Proof. unfold mergedLine. by destruct (incomingReportsHit _ _). Qed.

Lemma mergedLine_hit incoming d :
  LineDetail.hit (mergedLine incoming d) =
  if incomingReportsHit incoming (LineDetail.line d)
  then LineDetail.hit d + 1 else LineDetail.hit d.
Proof. unfold mergedLine. by destruct (incomingReportsHit _ _). Qed.

Lemma newLines_In existing incoming d :
  In d (newLines existing incoming) <->
  In d incoming /\ ~ In (LineDetail.line d) (List.map LineDetail.line existing).
Proof.
  unfold newLines. rewrite filter_In, negb_true_iff, bool_decide_eq_false.
  by rewrite elem_of_list_to_set, list_elem_of_In.
Qed.

Lemma NoDup_map_filter {A B : Type} (g : A -> B) (f : A -> bool) (l : list A) :
  NoDup (List.map g l) -> NoDup (List.map g (List.filter f l)).
Proof.
  induction l as [|a l IH]; simpl; [done|].
  rewrite NoDup_cons. intros [Hnotin Hnd]. destruct (f a); simpl; [|auto].
  rewrite NoDup_cons. split; [|auto].
  rewrite list_elem_of_In, in_map_iff. intros (b & Hb & [Hin _]%filter_In).
  apply Hnotin. rewrite list_elem_of_In, in_map_iff. eauto.
Qed.

Lemma merged_lines existing incoming :
  List.map LineDetail.line
    (List.map (mergedLine incoming) existing ++ newLines existing incoming) =
  List.map LineDetail.line existing ++
  List.map LineDetail.line (newLines existing incoming).
Proof.
  rewrite List.map_app, List.map_map. f_equal.
  apply List.map_ext. intros d. apply mergedLine_line.
Qed.

Lemma merged_lines_NoDup existing incoming :
  NoDup (List.map LineDetail.line existing) ->
  NoDup (List.map LineDetail.line incoming) ->
  NoDup (List.map LineDetail.line
           (List.map (mergedLine incoming) existing ++ newLines existing incoming)).
Proof.
  intros He Hi. rewrite merged_lines, NoDup_app. split; [done|]. split.
  - intros n Hn. rewrite list_elem_of_In, in_map_iff.
    intros (d & <- & [_ Hnot]%newLines_In). apply Hnot. by apply list_elem_of_In.
  - by apply NoDup_map_filter.
Qed.

Lemma merged_lines_set existing incoming :
  list_to_set
    (List.map LineDetail.line
       (List.map (mergedLine incoming) existing ++ newLines existing incoming)) =@{gset Z}
  list_to_set (List.map LineDetail.line (existing ++ incoming)).
Proof.
  rewrite merged_lines. apply set_eq. intros n.
  rewrite !elem_of_list_to_set, !list_elem_of_In, List.map_app, !in_app_iff.
  rewrite !in_map_iff. split.
  - intros [?|(d & <- & [? _]%newLines_In)]; eauto.
  - intros [?|(d & <- & Hd)]; [auto|].
    destruct (decide (LineDetail.line d ∈ List.map LineDetail.line existing))
      as [Hin|Hnot].
    + left. by apply in_map_iff, list_elem_of_In.
    + right. exists d. split; [done|]. apply newLines_In. split; [done|].
      by rewrite <- list_elem_of_In.
Qed.

End LineMerge.

Section LineMergeClaims.

Import Examples.

(** C4: when both sections have line data the line merge returns, and every
    line detail of the existing section is found at the same position of the
    merged details with the same line number and with its hit counter one
    higher if the incoming section has a detail of that line with [hit > 0]
    (whatever that count is), unchanged otherwise. *)
Theorem mergeLineCoverage_increment existingCoverage coverage existing incoming :
  lines existingCoverage = Some existing ->
  lines coverage = Some incoming ->
  exists merged,
    mergeLineCoverage existingCoverage coverage = Some merged /\
    forall (k : nat) d, Lines.details existing !! k = Some d ->
      exists d', Lines.details merged !! k = Some d' /\
        LineDetail.line d' = LineDetail.line d /\
        LineDetail.hit d' =
          if incomingReportsHit (Lines.details incoming) (LineDetail.line d)
          then LineDetail.hit d + 1 else LineDetail.hit d.
Proof.
  intros He Hi. unfold mergeLineCoverage. rewrite He, Hi.
  eexists. split; [reflexivity|]. intros k d Hk.
  rewrite mergeLineDetails_spec. cbn [Lines.details].
  exists (mergedLine (Lines.details incoming) d). split.
  - rewrite lookup_app_l.
    + by rewrite lookup_map, Hk.
    + rewrite length_map. by eapply lookup_lt_Some.
  - split; [apply mergedLine_line|apply mergedLine_hit].
Qed.

Lemma mergeLineCoverage_increment_witness :
  exists merged,
    mergeLineCoverage sectionA sectionB = Some merged /\
    forall (k : nat) d,
      [LineDetail.mk 5 3; LineDetail.mk 6 0] !! k = Some d ->
      exists d', Lines.details merged !! k = Some d' /\
        LineDetail.line d' = LineDetail.line d /\
        LineDetail.hit d' =
          if incomingReportsHit
               [LineDetail.mk 5 7; LineDetail.mk 6 0; LineDetail.mk 7 1]
               (LineDetail.line d)
          then LineDetail.hit d + 1 else LineDetail.hit d.
Proof.
  apply (mergeLineCoverage_increment sectionA sectionB
           (Lines.mk [LineDetail.mk 5 3; LineDetail.mk 6 0] 1 2)
           (Lines.mk [LineDetail.mk 5 7; LineDetail.mk 6 0; LineDetail.mk 7 1] 2 3)).
  - reflexivity.
  - reflexivity.
Defined.

(** The increment example of the specification: 3 becomes 4 when the
    incoming run hit the line (seven times here), line 6 stays at 0, and the
    new line 7 is appended as it is. *)
Example mergeLineCoverage_sectionA_sectionB :
  mergeLineCoverage sectionA sectionB =
  Some (Lines.mk [LineDetail.mk 5 4; LineDetail.mk 6 0; LineDetail.mk 7 1] 2 3).
Proof. vm_compute. reflexivity. Qed.

(** C5, as stated, fails: [found] counts the merged details, and a line
    number listed twice by one input is counted twice. *)
Lemma mergeLineCoverage_found_counterexample :
  mergeLineCoverage hitOnly repeatedLine =
    Some (Lines.mk [LineDetail.mk 1 1; LineDetail.mk 2 1; LineDetail.mk 2 0] 2 3) /\
  distinctLines [LineDetail.mk 1 1] [LineDetail.mk 2 1; LineDetail.mk 2 0] = 2%nat.
Proof. split; vm_compute; reflexivity. Qed.

(** C5 (amended): when both sections have line data the line merge returns;
    the merged [found] is the number of merged line details (the existing
    details plus the incoming details whose line number the existing section
    does not list) and the merged [hit] is the number of merged details with
    a positive hit counter; [found] is the number of distinct line numbers
    across both inputs when neither input lists a line number twice; the
    inputs' own [found] and [hit] are not read. *)
Theorem mergeLineCoverage_found_hit existingCoverage coverage existing incoming :
  lines existingCoverage = Some existing ->
  lines coverage = Some incoming ->
  exists merged,
    mergeLineCoverage existingCoverage coverage = Some merged /\
    Lines.found merged = Z.of_nat (length (Lines.details merged)) /\
    length (Lines.details merged) =
      (length (Lines.details existing) +
       length (newLines (Lines.details existing) (Lines.details incoming)))%nat /\
    Lines.hit merged = Z.of_nat (positiveLines (Lines.details merged)) /\
    (NoDup (List.map LineDetail.line (Lines.details existing)) ->
     NoDup (List.map LineDetail.line (Lines.details incoming)) ->
     Lines.found merged =
       Z.of_nat (distinctLines (Lines.details existing) (Lines.details incoming))) /\
    (forall existingCoverage' coverage' h f h' f',
       lines existingCoverage' = Some (Lines.mk (Lines.details existing) h f) ->
       lines coverage' = Some (Lines.mk (Lines.details incoming) h' f') ->
       mergeLineCoverage existingCoverage' coverage' = Some merged).
Proof.
  intros He Hi. unfold mergeLineCoverage at 1. rewrite He, Hi.
  eexists. split; [reflexivity|].
  rewrite mergeLineDetails_spec. cbn [Lines.details Lines.found Lines.hit].
  split; [done|]. split; [by rewrite length_app, length_map|].
  split; [done|]. split.
  - intros Hne Hni. f_equal. unfold distinctLines.
    rewrite <- merged_lines_set, size_list_to_set, length_map; [done|].
    by apply merged_lines_NoDup.
  - intros e' c' h f h' f' He' Hi'. unfold mergeLineCoverage.
    rewrite He', Hi'. cbn [Lines.details]. by rewrite mergeLineDetails_spec.
Qed.

Lemma mergeLineCoverage_found_hit_witness :
  exists merged,
    mergeLineCoverage sectionA sectionB = Some merged /\
    Lines.found merged = 3 /\ Lines.hit merged = 2.
Proof.
  destruct (mergeLineCoverage_found_hit sectionA sectionB
              (Lines.mk [LineDetail.mk 5 3; LineDetail.mk 6 0] 1 2)
              (Lines.mk [LineDetail.mk 5 7; LineDetail.mk 6 0; LineDetail.mk 7 1] 2 3)
              eq_refl eq_refl)
    as (merged & Hm & Hfound & _ & Hhit & Hdistinct & _).
  exists merged. split; [exact Hm|]. split.
  - rewrite Hdistinct.
    + vm_compute. reflexivity.
    + cbn. repeat (apply NoDup_cons_2; [vm_compute; set_solver|]). apply NoDup_nil_2.
    + cbn. repeat (apply NoDup_cons_2; [vm_compute; set_solver|]). apply NoDup_nil_2.
  - rewrite Hhit. injection Hm as <-. vm_compute. reflexivity.
Defined.

End LineMergeClaims.

Section SectionMergeClaims.

Import Examples.

(** C6: when the incoming section has no branch data the branch merge
    returns the existing section's branch data as it is; when the existing
    section has none and the incoming one has some, it returns the incoming
    section's branch data as it is.  [mergeSections] stores exactly that. *)
Theorem mergeBranchCoverage_missing :
  (forall existingCoverage coverage,
     branches coverage = None ->
     mergeBranchCoverage existingCoverage coverage = branches existingCoverage) /\
  (forall existingCoverage coverage incoming,
     branches existingCoverage = None ->
     branches coverage = Some incoming ->
     mergeBranchCoverage existingCoverage coverage = Some incoming) /\
  (forall existingCoverage coverage merged,
     mergeSections existingCoverage coverage = Some merged ->
     branches merged = mergeBranchCoverage existingCoverage coverage).
Proof.
  unfold mergeBranchCoverage. repeat split.
  - intros e c Hc. by rewrite Hc.
  - intros e c incoming He Hc. by rewrite Hc, He.
  - intros e c merged. unfold mergeSections.
    destruct (mergeLineCoverage e c); [|done]. by intros [= <-].
Qed.

Lemma mergeBranchCoverage_missing_witness :
  mergeBranchCoverage sectionA sectionB = branches sectionA /\
  mergeBranchCoverage sectionB sectionA = branches sectionA /\
  (exists merged, mergeSections sectionA sectionB = Some merged /\
     branches merged = Some (Branches.mk [BranchDetail.mk 5 0 0 1] 1 1)).
Proof.
  destruct mergeBranchCoverage_missing as (Hincoming & Hexisting & Hstored).
  split; [|split].
  - apply (Hincoming sectionA sectionB). reflexivity.
  - apply (Hexisting sectionB sectionA (Branches.mk [BranchDetail.mk 5 0 0 1] 1 1)).
    + reflexivity.
    + reflexivity.
  - eexists. split; [reflexivity|].
    rewrite (Hstored sectionA sectionB _ eq_refl). reflexivity.
Defined.

(** C7: when both sections have line data [mergeSections] returns, and the
    merged section has the title, the file (hence the merge key) and the
    function data of the existing section; its lines and branches are the
    results of the two merges. *)
Theorem mergeSections_identity existingSection section existing incoming :
  lines existingSection = Some existing ->
  lines section = Some incoming ->
  exists merged,
    mergeSections existingSection section = Some merged /\
    title merged = title existingSection /\
    file merged = file existingSection /\
    sectionKey merged = sectionKey existingSection /\
    functions merged = functions existingSection /\
    lines merged = mergeLineCoverage existingSection section /\
    branches merged = mergeBranchCoverage existingSection section.
Proof.
  intros He Hi. unfold mergeSections.
  assert (mergeLineCoverage existingSection section =
          Some (mergeLineDetails (Lines.details existing) (Lines.details incoming)))
    as -> by (unfold mergeLineCoverage; by rewrite He, Hi).
  eexists. split; [reflexivity|]. done.
Qed.

Lemma mergeSections_identity_witness :
  exists merged,
    mergeSections sectionA sectionB = Some merged /\
    title merged = "t" /\
    file merged = "src/a.ts" /\
    sectionKey merged = sectionKey sectionA /\
    functions merged = functions sectionA /\
    lines merged = mergeLineCoverage sectionA sectionB /\
    branches merged = mergeBranchCoverage sectionA sectionB.
Proof.
  apply (mergeSections_identity sectionA sectionB
           (Lines.mk [LineDetail.mk 5 3; LineDetail.mk 6 0] 1 2)
           (Lines.mk [LineDetail.mk 5 7; LineDetail.mk 6 0; LineDetail.mk 7 1] 2 3)).
  - reflexivity.
  - reflexivity.
Defined.

(** The merge raises exactly when one of the two sections has no line data. *)
Lemma mergeSections_None existingSection section :
  mergeSections existingSection section = None <->
  lines existingSection = None \/ lines section = None.
Proof.
  unfold mergeSections, mergeLineCoverage.
  destruct (lines section), (lines existingSection); naive_solver.
Qed.

End SectionMergeClaims.

(** * Properties of the aggregation *)

(** Case analysis on the format of an entry and on what its parser does. *)
Ltac extract_cases :=
  unfold answersWell, logLines in *;
  unfold extract, parseFails, reportedError, parsedSections, neverCallsBack,
    xmlExtractClover, xmlExtractJacoco, xmlExtractCobertura, lcovExtract,
    callbackExtract, checkError, truthy in *;
  cbn [fst snd] in *;
  repeat case_match; simplify_eq/=; try done.

Section Aggregation.

Variable c : Collaborators.

Implicit Types (entry : string * string) (files : list (string * string))
  (outputChannel : list string).

Lemma flatten_from (results : list (list CovSection)) (acc : list CovSection) :
  fold_left (fun acc val => acc ++ val) results acc = acc ++ flatten results.
Proof.
  unfold flatten. revert acc. induction results as [|v vs IH]; intros acc; simpl.
  - by rewrite app_nil_r.
  - rewrite (IH (acc ++ v)), (IH v). by rewrite app_assoc.
Qed.

Lemma flatten_cons v (vs : list (list CovSection)) :
  flatten (v :: vs) = v ++ flatten vs.
Proof. unfold flatten at 1. simpl. apply flatten_from. Qed.

Lemma awaited_cons p ps : awaited (p :: ps) = awaitedStep p (awaited ps).
Proof.
  unfold awaited. simpl.
  destruct p, (promiseAll ps); simpl; try done. by rewrite flatten_cons.
Qed.

Lemma awaited_skip pre post :
  awaited (pre ++ Fulfilled [] :: post) = awaited (pre ++ post).
Proof.
  induction pre as [|p pre IH]; simpl.
  - rewrite awaited_cons. by destruct (awaited post).
  - by rewrite !awaited_cons, IH.
Qed.

(** The promise pushed for an entry does not depend on the output channel. *)
Lemma extract_promise entry outputChannel :
  fst (extract c entry outputChannel) = fst (extract c entry []).
Proof. destruct entry as [fileName fileContent]. extract_cases. Qed.

Lemma parsePromises_cons entry files outputChannel :
  fst (parsePromises c (entry :: files) outputChannel) =
  pushed (fst (extract c entry [])) ++ fst (parsePromises c files []).
Proof.
  revert entry outputChannel.
  induction files as [|e files IH]; intros entry outputChannel.
  - simpl. rewrite <- (extract_promise entry outputChannel).
    destruct (extract c entry outputChannel) as [[p|] out]; simpl; done.
  - cbn [parsePromises]. rewrite <- (extract_promise entry outputChannel).
    destruct (extract c entry outputChannel) as [p out].
    specialize (IH e). cbn [parsePromises] in IH.
    pose proof (IH out) as H1. pose proof (IH []) as H2.
    destruct (extract c e out) as [p1 out1].
    destruct (extract c e []) as [p2 out2].
    destruct (parsePromises c files out1) as [ps1 o1].
    destruct (parsePromises c files out2) as [ps2 o2].
    cbn [fst] in *. rewrite H1, <- H2. by destruct p.
Qed.

Lemma parsePromises_app pre post outputChannel :
  fst (parsePromises c (pre ++ post) outputChannel) =
  fst (parsePromises c pre []) ++ fst (parsePromises c post []).
Proof.
  revert outputChannel. induction pre as [|e pre IH]; intros outputChannel.
  - simpl. destruct post as [|e post]; [done|].
    by rewrite !parsePromises_cons.
  - rewrite <- app_comm_cons, !parsePromises_cons, IH. by rewrite app_assoc.
Qed.

(** A parse failure reported as an [Error] object settles the promise with
    the empty list. *)
Lemma extract_ErrorObject entry err outputChannel :
  reportedError c entry = Some (ErrorObject err) ->
  fst (extract c entry outputChannel) = Some (Fulfilled []).
Proof. destruct entry as [fileName fileContent]. extract_cases. Qed.

Lemma filesToSections_awaited files outputChannel :
  fst (filesToSections c files outputChannel) =
  match awaited (fst (parsePromises c files outputChannel)) with
  | Fulfilled data =>
      if snd (addSections ∅ data) then Rejected
      else Fulfilled (fst (addSections ∅ data))
  | Rejected => Rejected
  | Pending => Pending
  end.
Proof.
  unfold filesToSections, awaited.
  destruct (parsePromises c files outputChannel) as [promises out]. simpl.
  destruct (promiseAll promises); try done.
  by destruct (addSections ∅ (flatten value)).
Qed.

Lemma awaited_Fulfilled promises data :
  awaited promises = Fulfilled data ->
  forall d s, In (Fulfilled d) promises -> In s d -> In s data.
Proof.
  revert data. induction promises as [|p ps IH]; intros data; [by intros _ d s []|].
  rewrite awaited_cons. destruct p as [v| |], (awaited ps) as [vs| |]; try done.
  simpl. intros [= <-] d s [[= ->]|Hin] Hs; rewrite in_app_iff; [auto|].
  right. by apply (IH vs eq_refl d s).
Qed.

Lemma parsePromises_In files outputChannel entry p :
  In entry files -> fst (extract c entry []) = Some p ->
  In p (fst (parsePromises c files outputChannel)).
Proof.
  revert outputChannel. induction files as [|e files IH]; intros out; [done|].
  rewrite parsePromises_cons, in_app_iff. intros [->|Hin] Hp.
  - left. rewrite Hp. simpl. auto.
  - right. by apply IH.
Qed.

Lemma addToSectionsMap_keeps st section key :
  is_Some (fst st !! key) -> is_Some (fst (addToSectionsMap st section) !! key).
Proof.
  destruct st as [coverages raised]. unfold addToSectionsMap. simpl.
  intros Hk. destruct (coverages !! sectionKey section) as [existing|] eqn:E.
  - destruct (mergeSections existing section); simpl; [|done].
    rewrite lookup_insert_is_Some. destruct (decide (sectionKey section = key)); auto.
  - simpl. rewrite lookup_insert_is_Some.
    destruct (decide (sectionKey section = key)); auto.
Qed.

Lemma addToSectionsMap_key st section :
  is_Some (fst (addToSectionsMap st section) !! sectionKey section).
Proof.
  destruct st as [coverages raised]. unfold addToSectionsMap.
  destruct (coverages !! sectionKey section) as [existing|] eqn:E.
  - destruct (mergeSections existing section); simpl.
    + rewrite lookup_insert_is_Some. auto.
    + by rewrite E.
  - simpl. rewrite lookup_insert_is_Some. auto.
Qed.

Lemma fold_addToSectionsMap_keeps data st key :
  is_Some (fst st !! key) ->
  is_Some (fst (fold_left addToSectionsMap data st) !! key).
Proof.
  revert st. induction data as [|s data IH]; intros st Hk; simpl; [done|].
  by apply IH, addToSectionsMap_keeps.
Qed.

Lemma addSections_keys coverages data section :
  In section data ->
  is_Some (fst (addSections coverages data) !! sectionKey section).
Proof.
  unfold addSections. generalize (coverages, false).
  induction data as [|s data IH]; intros st; [done|].
  intros [->|Hin]; simpl.
  - apply fold_addToSectionsMap_keeps, addToSectionsMap_key.
  - by apply IH.
Qed.

Lemma awaited_Fulfilled_members promises data p :
  awaited promises = Fulfilled data -> In p promises -> exists d, p = Fulfilled d.
Proof.
  revert data. induction promises as [|q ps IH]; intros data; [by intros _ []|].
  rewrite awaited_cons. destruct q as [v| |], (awaited ps) as [vs| |]; try done.
  intros _ [<-|Hin]; [by eexists|]. by apply (IH vs).
Qed.

(** A parse failure that is not reported as an [Error] object, or a parser
    that never calls back, leaves the promise of the extractor pending or
    rejected. *)
Lemma extract_answers_badly entry outputChannel :
  answersWell c entry = false ->
  fst (extract c entry outputChannel) = Some Pending \/
  fst (extract c entry outputChannel) = Some Rejected.
Proof. destruct entry as [fileName fileContent]. extract_cases; auto. Qed.

Lemma filesToSections_answers_badly files entry outputChannel coverages :
  In entry files -> answersWell c entry = false ->
  fst (filesToSections c files outputChannel) <> Fulfilled coverages.
Proof.
  intros Hin Hbad. rewrite filesToSections_awaited.
  destruct (awaited _) as [all| |] eqn:Hall; try done. intros _.
  assert (exists p, fst (extract c entry []) = Some p /\
                    (p = Pending \/ p = Rejected)) as (p & Hp & Hcase).
  { destruct (extract_answers_badly entry [] Hbad) as [-> | ->]; eauto. }
  destruct (awaited_Fulfilled_members _ _ p Hall) as [d ->].
  - by apply parsePromises_In with entry.
  - by destruct Hcase.
Qed.

(** A parse failure reported as an [Error] object settles the promise of
    its extractor with no sections, and the outcome of [filesToSections] is
    then the outcome on the other files alone. *)
Theorem filesToSections_error_object pre entry post err outputChannel :
  reportedError c entry = Some (ErrorObject err) ->
  fst (extract c entry outputChannel) = Some (Fulfilled []) /\
  fst (filesToSections c (pre ++ entry :: post) outputChannel) =
    fst (filesToSections c (pre ++ post) outputChannel).
Proof.
  intros Hfail. split; [by apply extract_ErrorObject with err|].
  rewrite !filesToSections_awaited, !parsePromises_app.
  destruct post as [|e post].
  - rewrite parsePromises_cons.
    rewrite <- (extract_promise entry outputChannel),
      (extract_ErrorObject entry err outputChannel Hfail). simpl.
    by rewrite awaited_skip.
  - rewrite (parsePromises_cons entry).
    rewrite <- (extract_promise entry outputChannel),
      (extract_ErrorObject entry err outputChannel Hfail). simpl.
    by rewrite awaited_skip.
Qed.

End Aggregation.

Section AggregationExample.

Import Examples.

Lemma filesToSections_error_object_witness :
  fst (extract exampleCollaborators ("coverage/clover.xml", "clover") [])
    = Some (Fulfilled []) /\
  fst (filesToSections exampleCollaborators
         ([("coverage/lcov.info", "lcov")] ++
          ("coverage/clover.xml", "clover") :: [("coverage/lcov2.info", "lcov")]) [])
    = Fulfilled {[ "t::src/a.ts" :=
        {| title := "t"; file := "src/a.ts";
           lines := Some (Lines.mk [LineDetail.mk 5 4; LineDetail.mk 6 0] 1 2);
           functions := None;
           branches := Some (Branches.mk [BranchDetail.mk 5 0 0 2] 1 1) |} ]}.
Proof.
  destruct (filesToSections_error_object exampleCollaborators
              [("coverage/lcov.info", "lcov")] ("coverage/clover.xml", "clover")
              [("coverage/lcov2.info", "lcov")] brokenInput [] eq_refl)
    as (Hempty & Hsame).
  split; [exact Hempty|]. rewrite Hsame. vm_compute. reflexivity.
Defined.

(** C9 (code bug): a file whose parser reports its failure as a string.
    [source] calls back with ['Failed to parse string'] for ["notes.txt"];
    [err.message = ...] raises in the async callback, [resolve] is never
    reached, the promise of [lcovExtract] stays pending and so does
    [filesToSections]: no map is returned and nothing is logged, although
    the other file alone gives a map. *)
Theorem filesToSections_string_error :
  parseFails lcovCollaborators ("notes.txt", "not a report") = true /\
  extract lcovCollaborators ("notes.txt", "not a report") [] = (Some Pending, []) /\
  filesToSections lcovCollaborators
    [("coverage/lcov.info", "TN:"); ("notes.txt", "not a report")] [] = (Pending, []) /\
  filesToSections lcovCollaborators [("coverage/lcov.info", "TN:")] []
    = (Fulfilled {[ "t::src/a.ts" := sectionA ]}, []).
Proof. repeat split; vm_compute; reflexivity. Qed.

(** The failure is logged with the file name in the message. *)
Example filesToSections_logs_failure :
  snd (filesToSections exampleCollaborators
         [("coverage/lcov.info", "lcov"); ("coverage/clover.xml", "clover")] []) =
  ["[1700000000000][coverageparser][clover-parse]: Error: filename: coverage/clover.xml unexpected end of input"].
Proof. vm_compute. reflexivity. Qed.

End AggregationExample.

(** * Further properties of the classifier *)

Section ClassifierCharacterisation.

Import Examples.

Implicit Types (sets : CoverageSets) (s : CovSection) (x : Z)
  (sections : list CovSection).

Lemma lineCallback_none sets d x :
  x ∈ none (lineCallback sets d) <->
  if 0 <? LineDetail.hit d
  then x ∈ none sets /\ x <> LineDetail.line d - 1
  else x ∈ none sets \/ (x = LineDetail.line d - 1 /\ x ∉ full sets).
Proof.
  unfold lineCallback. destruct (0 <? LineDetail.hit d); simpl.
  - set_solver.
  - case_decide; simpl; set_solver.
Qed.

Lemma linePass_none l sets x :
  x ∈ none (fold_left lineCallback l sets) <->
  (~ exists d, In d l /\ 0 < LineDetail.hit d /\ x = LineDetail.line d - 1) /\
  (x ∈ none sets \/
   ((exists d, In d l /\ ~ 0 < LineDetail.hit d /\ x = LineDetail.line d - 1) /\
    x ∉ full sets)).
Proof.
  revert sets. induction l as [|d l IH]; intros sets.
  - simpl. split.
    + intros Hx. split; [|auto]. by intros (d & [] & _).
    + intros [_ [?|[(d & [] & _) _]]]; done.
  - cbn [fold_left]. rewrite IH, lineCallback_none, lineCallback_full. clear IH.
    destruct (Z.ltb_spec 0 (LineDetail.hit d)) as [Hpos|Hneg];
      destruct (decide (x = LineDetail.line d - 1)) as [Heq|Hne].
    + split.
      * intros [_ [[_ ?]|[_ Hn]]]; [done|]. destruct Hn. auto.
      * intros [Hn _]. destruct Hn. exists d. simpl. auto.
    + split.
      * intros [Hn Hx]. split.
        { intros (d' & [<-|?] & ? & ?); [done|]. apply Hn; eauto. }
        destruct Hx as [[? _]|[(d' & ? & ?) Hf]]; [auto|].
        right. split; [exists d'; simpl; auto|]. intros ?. apply Hf. auto.
      * intros [Hn Hx]. split.
        { intros (d' & ? & ?). apply Hn. exists d'. simpl. auto. }
        destruct Hx as [?|[(d' & [<-|?] & ? & ?) Hf]]; [auto|lia|].
        right. split; [eauto|]. intros [?|[_ ?]]; done.
    + split.
      * intros [Hn Hx]. split.
        { intros (d' & [<-|?] & ? & ?); [lia|]. apply Hn; eauto. }
        destruct Hx as [[?|[_ Hf]]|[_ Hf]]; [auto| |].
        { right. split; [|done]. exists d. simpl. split; [auto|]. split; [lia|done]. }
        { right. split; [|auto]. exists d. simpl. split; [auto|]. split; [lia|done]. }
      * intros [Hn Hx]. split.
        { intros (d' & ? & ?). apply Hn. exists d'. simpl. auto. }
        destruct Hx as [?|[_ Hf]]; [auto|]. left. right. done.
    + split.
      * intros [Hn Hx]. split.
        { intros (d' & [<-|?] & ? & ?); [lia|]. apply Hn; eauto. }
        destruct Hx as [[?|[? _]]|[(d' & ? & ?) Hf]]; [auto|done|].
        right. split; [exists d'; simpl; auto|]. auto.
      * intros [Hn Hx]. split.
        { intros (d' & ? & ?). apply Hn. exists d'. simpl. auto. }
        destruct Hx as [?|[(d' & [<-|?] & ? & ?) Hf]]; [auto|done|].
        right. split; [eauto|]. intros [?|[? _]]; [done|lia].
Qed.

Lemma reportsHit_details s x :
  reportsHit s x = true <->
  exists l d, lines s = Some l /\
    In d (List.filter (fun detail => 0 <? LineDetail.line detail) (Lines.details l)) /\
    0 < LineDetail.hit d /\ x = LineDetail.line d - 1.
Proof.
  unfold reportsHit. destruct (lines s) as [l|].
  - rewrite existsb_exists. split.
    + intros (d & Hin & [[Hpos Heq]%andb_true_iff Hhit]%andb_true_iff).
      exists l, d. rewrite filter_In. repeat split; [done|done|lia|lia].
    + intros (l' & d & [= <-] & [Hin Hpos]%filter_In & Hhit & ->). exists d.
      split; [done|]. rewrite !andb_true_iff. repeat split; [done|lia|lia].
  - split; [done|]. by intros (l & d & ? & _).
Qed.

Lemma reportsZero_details s x :
  reportsZero s x = true <->
  exists l d, lines s = Some l /\
    In d (List.filter (fun detail => 0 <? LineDetail.line detail) (Lines.details l)) /\
    ~ 0 < LineDetail.hit d /\ x = LineDetail.line d - 1.
Proof.
  unfold reportsZero. destruct (lines s) as [l|].
  - rewrite existsb_exists. split.
    + intros (d & Hin & [[Hpos Heq]%andb_true_iff Hhit%negb_true_iff]%andb_true_iff).
      exists l, d. rewrite filter_In. repeat split; [done|done|lia|lia].
    + intros (l' & d & [= <-] & [Hin Hpos]%filter_In & Hhit & ->). exists d.
      split; [done|]. rewrite !andb_true_iff, negb_true_iff.
      repeat split; [done|lia|lia].
  - split; [done|]. by intros (l & d & ? & _).
Qed.

Lemma filterLineCoverage_none s sets x :
  x ∈ none (filterLineCoverage s sets) <->
  reportsHit s x = false /\
  (x ∈ none sets \/ (reportsZero s x = true /\ x ∉ full sets)).
Proof.
  rewrite <- not_true_iff_false, reportsHit_details, reportsZero_details.
  unfold filterLineCoverage. destruct (lines s) as [l|].
  - rewrite linePass_none. split.
    + intros [Hn Hx]. split.
      * intros (l' & d & [= <-] & ? & ?). apply Hn; eauto.
      * destruct Hx as [?|[(d & ? & ?) ?]]; [auto|]. right. split; [|done]. eauto.
    + intros [Hn Hx]. split.
      * intros (d & ? & ?). apply Hn; eauto.
      * destruct Hx as [?|[(l' & d & [= <-] & ? & ?) ?]]; [auto|]. right. eauto.
  - split.
    + intros ?. split; [|auto]. by intros (l & d & ? & _).
    + intros [_ [?|[(l & d & ? & _) _]]]; done.
Qed.

Lemma sectionCallback_none sets s x :
  x ∈ none (sectionCallback sets s) <->
  reportsHit s x = false /\
  (x ∈ none sets \/ (reportsZero s x = true /\ x ∉ full sets)).
Proof.
  unfold sectionCallback.
  by rewrite filterBranchCoverage_none, filterLineCoverage_none.
Qed.

Lemma reportsHit_nonneg s x : reportsHit s x = true -> 0 <= x.
Proof.
  intros (l & d & _ & [_ Hpos]%filter_In & _ & ->)%reportsHit_details. lia.
Qed.

Lemma reportsZero_nonneg s x : reportsZero s x = true -> 0 <= x.
Proof.
  intros (l & d & _ & [_ Hpos]%filter_In & _ & ->)%reportsZero_details. lia.
Qed.

(** The final [full]: some section reports the line as hit and neither that
    section nor a later one has an untaken branch for it. *)
Theorem classify_full_iff sections x :
  x ∈ full (classify sections) <->
  exists (i : nat) si,
    sections !! i = Some si /\ reportsHit si x = true /\
    forall (j : nat) sj, (i <= j)%nat -> sections !! j = Some sj ->
      reportsUntaken sj x = false.
Proof.
  induction sections as [|s l IH] using rev_ind.
  - split; [set_solver|]. by intros (i & si & ? & _).
  - rewrite classify_snoc, sectionCallback_full, IH. clear IH. split.
    + intros [[(i & si & Hi & Hhit & Hlater)|Hhit] Hunt].
      * exists i, si. split; [by apply lookup_app_l_Some|]. split; [done|].
        intros j sj Hij [[_ Hj]|[-> <-]]%lookup_snoc_Some; [|done].
        by apply (Hlater j).
      * exists (length l), s. split; [by apply list_lookup_middle|].
        split; [done|].
        intros j sj Hij [[Hj _]|[-> <-]]%lookup_snoc_Some; [lia|done].
    + intros (i & si & Hi & Hhit & Hlater).
      apply lookup_snoc_Some in Hi as [[Hlt Hi]|[-> <-]].
      * split.
        { left. exists i, si. split; [done|]. split; [done|].
          intros j sj Hij Hj. apply (Hlater j); [done|].
          by apply lookup_app_l_Some. }
        apply (Hlater (length l)); [lia|]. by apply list_lookup_middle.
      * split; [by right|].
        apply (Hlater (length l)); [lia|]. by apply list_lookup_middle.
Qed.

(** The final [partial]: some section reports the line as hit and that
    section or a later one has an untaken branch for it. *)
Theorem classify_partial_iff sections x :
  x ∈ partial (classify sections) <->
  exists (i j : nat) si sj,
    sections !! i = Some si /\ sections !! j = Some sj /\ (i <= j)%nat /\
    reportsHit si x = true /\ reportsUntaken sj x = true.
Proof.
  split.
  - induction sections as [|s l IH] using rev_ind; [set_solver|].
    rewrite classify_snoc, sectionCallback_partial.
    intros [(i & j & si & sj & Hi & Hj & ? & ? & ?)%IH|[Hcov Hunt]].
    + exists i, j, si, sj. by repeat split; try apply lookup_app_l_Some.
    + destruct Hcov as [Hf|Hhit].
      * assert (exists s', In s' l /\ reportsHit s' x = true) as (si & Hin & Hhit)
          by (apply classify_covered; auto).
        apply list_elem_of_In, list_elem_of_lookup in Hin as [i Hi].
        exists i, (length l), si, s.
        pose proof (lookup_lt_Some _ _ _ Hi).
        repeat split; [by apply lookup_app_l_Some|by apply list_lookup_middle
                      |lia|done|done].
      * exists (length l), (length l), s, s.
        by repeat split; try apply list_lookup_middle.
  - intros (i & j & si & sj & Hi & Hj & ? & ? & ?).
    by apply (classify_partial_later sections i j si sj).
Qed.

(** The final [none]: some section reports the line with no hit while it is
    not in [full], and neither that section nor a later one reports it as
    hit. *)
Theorem classify_none_iff sections x :
  x ∈ none (classify sections) <->
  exists (k : nat) sk,
    sections !! k = Some sk /\ reportsZero sk x = true /\
    (x ∉ full (classify (take k sections))) /\
    forall (j : nat) sj, (k <= j)%nat -> sections !! j = Some sj ->
      reportsHit sj x = false.
Proof.
  induction sections as [|s l IH] using rev_ind.
  - split; [set_solver|]. by intros (k & sk & ? & _).
  - rewrite classify_snoc, sectionCallback_none, IH. clear IH. split.
    + intros [Hnohit [(k & sk & Hk & Hzero & Hnf & Hlater)|[Hzero Hnf]]].
      * exists k, sk. pose proof (lookup_lt_Some _ _ _ Hk).
        split; [by apply lookup_app_l_Some|]. split; [done|].
        split; [by rewrite take_app_le by lia|].
        intros j sj Hkj [[_ Hj]|[-> <-]]%lookup_snoc_Some; [|done].
        by apply (Hlater j).
      * exists (length l), s. split; [by apply list_lookup_middle|].
        split; [done|]. split; [by rewrite take_app_length|].
        intros j sj Hkj [[Hj _]|[-> <-]]%lookup_snoc_Some; [lia|done].
    + intros (k & sk & Hk & Hzero & Hnf & Hlater).
      split; [apply (Hlater (length l));
              [apply lookup_snoc_Some in Hk; lia|by apply list_lookup_middle]|].
      apply lookup_snoc_Some in Hk as [[Hlt Hk]|[-> <-]].
      * left. exists k, sk. split; [done|]. split; [done|].
        split; [by rewrite take_app_le in Hnf by lia|].
        intros j sj Hkj Hj. apply (Hlater j); [done|].
        by apply lookup_app_l_Some.
      * right. split; [done|]. by rewrite take_app_length in Hnf.
Qed.

Lemma classify_none_zero sections x :
  x ∈ none (classify sections) ->
  exists s, In s sections /\ reportsZero s x = true.
Proof.
  induction sections as [|s l IH] using rev_ind; [set_solver|].
  rewrite classify_snoc, sectionCallback_none.
  intros [_ [(s' & ? & ?)%IH|[Hzero _]]].
  - exists s'. rewrite in_app_iff. auto.
  - exists s. rewrite in_app_iff. simpl. auto.
Qed.

Lemma classify_none_unhit sections x :
  (forall s, In s sections -> reportsHit s x = false) ->
  (exists s, In s sections /\ reportsZero s x = true) ->
  x ∈ none (classify sections).
Proof.
  induction sections as [|s l IH] using rev_ind; intros Hnever (sz & Hin & Hzero);
    [done|].
  rewrite classify_snoc, sectionCallback_none.
  split; [apply Hnever; rewrite in_app_iff; simpl; auto|].
  apply in_app_iff in Hin as [Hin|[<-|[]]].
  - left. apply IH; [|eauto]. intros s' ?. apply Hnever. rewrite in_app_iff. auto.
  - right. split; [done|]. intros Hf.
    destruct (proj1 (classify_covered l x) (or_introl Hf)) as (s' & Hs' & Hhit).
    rewrite Hnever in Hhit; [done|]. rewrite in_app_iff. auto.
Qed.

Lemma classify_covered_lookup sections x :
  x ∈ full (classify sections) \/ x ∈ partial (classify sections) ->
  exists (i : nat) si, sections !! i = Some si /\ reportsHit si x = true.
Proof.
  intros (si & Hin & Hhit)%classify_covered.
  apply list_elem_of_In, list_elem_of_lookup in Hin as [i Hi]. eauto.
Qed.

(** A line that some section reports with no hit and that no section
    reports as hit ends in [none], and in neither [full] nor [partial]. *)
Theorem classify_never_hit sections (k : nat) sk x :
  sections !! k = Some sk -> reportsZero sk x = true ->
  (forall (j : nat) sj, sections !! j = Some sj -> reportsHit sj x = false) ->
  x ∈ none (classify sections) /\
  (x ∉ full (classify sections)) /\ (x ∉ partial (classify sections)).
Proof.
  intros Hk Hzero Hnever. split; [|split].
  - apply classify_none_unhit.
    + intros s [j Hj]%list_elem_of_In%list_elem_of_lookup. by apply (Hnever j).
    + exists sk. split; [|done]. apply list_elem_of_In.
      by eapply list_elem_of_lookup_2.
  - intros Hf. destruct (classify_covered_lookup sections x) as (i & si & Hi & Hhit);
      [auto|]. by rewrite (Hnever i si Hi) in Hhit.
  - intros Hp. destruct (classify_covered_lookup sections x) as (i & si & Hi & Hhit);
      [auto|]. by rewrite (Hnever i si Hi) in Hhit.
Qed.

Lemma classify_never_hit_witness :
  1 ∈ none (classify [exampleSection; zeroHits]) /\
  (1 ∉ full (classify [exampleSection; zeroHits])) /\
  (1 ∉ partial (classify [exampleSection; zeroHits])).
Proof.
  apply (classify_never_hit [exampleSection; zeroHits] 0 exampleSection 1).
  - reflexivity.
  - reflexivity.
  - intros [|[|j]] sj Hj; simpl in Hj; [injection Hj as <-..|discriminate];
      reflexivity.
Defined.

(** No set ever holds a negative line index: details with [line <= 0] are
    skipped by both passes. *)
Theorem classify_nonnegative sections x :
  x ∈ full (classify sections) \/ x ∈ partial (classify sections) \/
  x ∈ none (classify sections) ->
  0 <= x.
Proof.
  intros [Hf|[Hp|Hn]].
  - destruct (classify_covered_lookup sections x) as (i & si & _ & Hhit); [auto|].
    by apply reportsHit_nonneg with si.
  - destruct (classify_covered_lookup sections x) as (i & si & _ & Hhit); [auto|].
    by apply reportsHit_nonneg with si.
  - apply classify_none_zero in Hn as (sk & _ & Hzero).
    by apply reportsZero_nonneg with sk.
Qed.

Lemma classify_nonnegative_witness : 0 <= 1.
Proof.
  apply (classify_nonnegative [exampleSection] 1).
  right. right. apply (bool_decide_unpack _). vm_compute. exact I.
Defined.

Lemma CoverageSets_eq (a b : CoverageSets) :
  full a = full b -> partial a = partial b -> none a = none b -> a = b.
Proof. destruct a, b. simpl. by intros -> -> ->. Qed.

Lemma classify_no_untaken_sets sections :
  (forall s x, In s sections -> reportsUntaken s x = false) ->
  partial (classify sections) = ∅ /\
  (forall x, x ∈ full (classify sections) <->
             exists s, In s sections /\ reportsHit s x = true) /\
  (forall x, x ∈ none (classify sections) <->
             (exists s, In s sections /\ reportsZero s x = true) /\
             forall s, In s sections -> reportsHit s x = false).
Proof.
  intros Hnone.
  assert (partial (classify sections) = ∅) as Hp.
  { apply set_eq. intros x. split; [|set_solver].
    intros (s & Hs & Hu)%classify_partial_untaken.
    by rewrite (Hnone s x Hs) in Hu. }
  assert (forall x, x ∈ full (classify sections) <->
                    exists s, In s sections /\ reportsHit s x = true) as Hf.
  { intros x. rewrite <- classify_covered, Hp. set_solver. }
  split; [done|]. split; [done|]. intros x. split.
  - intros Hn. split; [by apply classify_none_zero|].
    intros s Hs. destruct (reportsHit s x) eqn:Hhit; [|done].
    destruct (classify_full_none sections x); [|done]. apply Hf. eauto.
  - intros [Hzero Hnever]. by apply classify_none_unhit.
Qed.

(** When no section has an untaken branch, the classification does not
    depend on the order of the sections: [full] holds the lines some section
    reports as hit, [none] the lines some section reports without hit and no
    section reports as hit, [partial] is empty, and the three sets are
    pairwise disjoint. *)
Theorem classify_no_untaken sections :
  (forall s x, In s sections -> reportsUntaken s x = false) ->
  partial (classify sections) = ∅ /\
  (forall x, x ∈ full (classify sections) <->
             exists s, In s sections /\ reportsHit s x = true) /\
  (forall x, x ∈ none (classify sections) <->
             (exists s, In s sections /\ reportsZero s x = true) /\
             forall s, In s sections -> reportsHit s x = false) /\
  pairwiseDisjoint (classify sections) /\
  forall sections', Permutation sections sections' ->
                    classify sections' = classify sections.
Proof.
  intros Hnone.
  destruct (classify_no_untaken_sets sections Hnone) as (Hp & Hf & Hn).
  split; [done|]. split; [done|]. split; [done|]. split.
  - unfold pairwiseDisjoint. rewrite Hp.
    split; [set_solver|]. split; [apply classify_full_none|set_solver].
  - intros sections' Hperm.
    assert (forall s, In s sections' <-> In s sections) as Hin.
    { intros s. split; apply Permutation_in; [by symmetry|done]. }
    destruct (classify_no_untaken_sets sections') as (Hp' & Hf' & Hn').
    { intros s x Hs. apply Hnone. by apply Hin. }
    apply CoverageSets_eq.
    + apply set_eq. intros x. rewrite Hf, Hf'. by setoid_rewrite Hin.
    + by rewrite Hp, Hp'.
    + apply set_eq. intros x. rewrite Hn, Hn'. by setoid_rewrite Hin.
Qed.

Lemma classify_no_untaken_witness :
  classify [hitOnly; sectionB; zeroHits] = classify [zeroHits; hitOnly; sectionB].
Proof.
  destruct (classify_no_untaken [zeroHits; hitOnly; sectionB])
    as (_ & _ & _ & _ & Hperm).
  - intros s x [<-|[<-|[<-|[]]]]; reflexivity.
  - apply Hperm. apply (Permutation_cons_append [hitOnly; sectionB] zeroHits).
Defined.

End ClassifierCharacterisation.

(** * Ranges and rendering *)

Section Rendering.

Import Examples.

Lemma map_fmap {A B : Type} (f : A -> B) (l : list A) : List.map f l = f <$> l.
Proof. reflexivity. Qed.

(** [setsToRanges] gives one range per line of the set, each from column 0
    to column 0 of that line, and no range twice. *)
Theorem setsToRanges_spec (lines : gset Z) :
  length (setsToRanges lines) = size lines /\
  NoDup (setsToRanges lines) /\
  forall r, In r (setsToRanges lines) <->
            exists line, line ∈ lines /\ r = mkRange line 0 line 0.
Proof.
  unfold setsToRanges. split; [by rewrite length_map|]. split.
  - rewrite map_fmap. apply NoDup_fmap_2; [|apply NoDup_elements].
    by intros a b [= ->].
  - intros r. rewrite in_map_iff. split.
    + intros (line & <- & Hin). exists line. split; [|done].
      by apply elem_of_elements, list_elem_of_In.
    + intros (line & Hin & ->). exists line. split; [done|].
      by apply list_elem_of_In, elem_of_elements.
Qed.

Lemma setsToRanges_empty : setsToRanges ∅ = [].
Proof. unfold setsToRanges. by rewrite elements_empty. Qed.

(** Rendering an editor replaces its three coverage decorations by the
    ranges of the classification of the sections found for it (no ranges at
    all when none is found), whatever it showed before, and leaves the
    document and every other decoration type alone. *)
Theorem renderEditor_decorations configStore findSectionsForEditor sections textEditor :
  fullCoverageDecorationType configStore <> noCoverageDecorationType configStore ->
  fullCoverageDecorationType configStore <> partialCoverageDecorationType configStore ->
  noCoverageDecorationType configStore <> partialCoverageDecorationType configStore ->
  let found :=
    findSectionsForEditor (removeDecorationsForEditor configStore textEditor) sections in
  let rendered := renderEditor configStore findSectionsForEditor sections textEditor in
  document rendered = document textEditor /\
  decorations rendered !! fullCoverageDecorationType configStore
    = Some (setsToRanges (full (classify found))) /\
  decorations rendered !! noCoverageDecorationType configStore
    = Some (setsToRanges (none (classify found))) /\
  decorations rendered !! partialCoverageDecorationType configStore
    = Some (setsToRanges (partial (classify found))) /\
  forall key,
    key <> fullCoverageDecorationType configStore ->
    key <> noCoverageDecorationType configStore ->
    key <> partialCoverageDecorationType configStore ->
    decorations rendered !! key = decorations textEditor !! key.
Proof.
  intros Hfn Hfp Hnp found rendered. subst found rendered. unfold renderEditor.
  destruct (findSectionsForEditor _ sections) as [|s l].
  - change (classify []) with emptySets. cbn [full none partial emptySets].
    rewrite setsToRanges_empty.
    unfold removeDecorationsForEditor, setDecorations. cbn [document decorations].
    split; [done|]. split; [by simplify_map_eq|]. split; [by simplify_map_eq|].
    split; [by simplify_map_eq|]. intros key ? ? ?. by simplify_map_eq.
  - fold (classify (s :: l)).
    unfold setDecorationsForEditor, removeDecorationsForEditor, setDecorations.
    cbn [document decorations ICoverageLines.full ICoverageLines.none
         ICoverageLines.partial].
    split; [done|]. split; [by simplify_map_eq|]. split; [by simplify_map_eq|].
    split; [by simplify_map_eq|]. intros key ? ? ?. by simplify_map_eq.
Qed.

Lemma renderEditor_decorations_witness :
  let rendered :=
    renderEditor exampleConfig (fun _ _ => [exampleSection]) ∅ staleEditor in
  decorations rendered !! "full" = Some [] /\
  decorations rendered !! "none" = Some [mkRange 1 0 1 0] /\
  decorations rendered !! "partial" = Some [mkRange 0 0 0 0] /\
  decorations rendered !! "other" = Some [mkRange 9 0 9 0].
Proof.
  destruct (renderEditor_decorations exampleConfig (fun _ _ => [exampleSection]) ∅
              staleEditor)
    as (_ & Hfull & Hnone & Hpartial & Hother).
  - discriminate.
  - discriminate.
  - discriminate.
  - change (fullCoverageDecorationType exampleConfig) with "full" in Hfull.
    change (noCoverageDecorationType exampleConfig) with "none" in Hnone.
    change (partialCoverageDecorationType exampleConfig) with "partial" in Hpartial.
    cbv zeta. rewrite Hfull, Hnone, Hpartial, (Hother "other") by discriminate.
    repeat split; vm_compute; reflexivity.
Defined.

End Rendering.

(** * Further properties of the section merger *)

Section BranchMerge.

Implicit Types (existing incoming : list BranchDetail.t) (b : BranchDetail.t).

Lemma elem_of_branchTaken incoming key :
  key ∈ branchTaken incoming <-> incomingReportsTaken incoming key = true.
Proof.
  unfold branchTaken, incomingReportsTaken.
  rewrite elem_of_list_to_set, list_elem_of_In, in_map_iff, existsb_exists.
  split.
  - intros (r & <- & [Hin Htaken]%filter_In). exists r. split; [done|].
    rewrite andb_true_iff. split; [by apply bool_decide_eq_true|done].
  - intros (r & Hin & [Hkey%bool_decide_eq_true Htaken]%andb_true_iff).
    exists r. rewrite filter_In. by repeat split.
Qed.

Lemma existingBranchCallback_spec incoming hit found seen b :
  existingBranchCallback (branchTaken incoming) (hit, found, seen) b =
  ((if 0 <? BranchDetail.taken (mergedBranch incoming b) then hit + 1 else hit,
    found + 1, {[getKey b]} ∪ seen),
   mergedBranch incoming b).
Proof.
  unfold existingBranchCallback, mergedBranch.
  pose proof (elem_of_branchTaken incoming (getKey b)) as H.
  case_decide as Hd.
  - by rewrite (proj1 H Hd).
  - destruct (incomingReportsTaken incoming (getKey b)); [|done].
    by destruct Hd; apply H.
Qed.

Lemma existing_branch_pass incoming existing hit found seen :
  mapState (existingBranchCallback (branchTaken incoming)) (hit, found, seen) existing =
  ((hit + Z.of_nat (positiveBranches (List.map (mergedBranch incoming) existing)),
    found + Z.of_nat (length existing),
    list_to_set (List.map getKey existing) ∪ seen),
   List.map (mergedBranch incoming) existing).
Proof.
  revert hit found seen. induction existing as [|b l IH]; intros hit found seen.
  - cbn. by rewrite !Z.add_0_r, (left_id_L ∅ (∪)).
  - cbn [mapState]. rewrite existingBranchCallback_spec, IH.
    unfold positiveBranches. cbn [List.map List.filter list_to_set].
    rewrite (assoc_L (∪)), (comm_L (∪) (list_to_set _) {[_]}).
    destruct (0 <? BranchDetail.taken (mergedBranch incoming b)); cbn [length];
      tuple_eq.
Qed.

Lemma incoming_branch_pass l hit found details :
  fold_left incomingBranchCallback l (hit, found, details) =
  (hit + Z.of_nat (positiveBranches l), found + Z.of_nat (length l), details ++ l).
Proof.
  revert hit found details. induction l as [|b l IH]; intros hit found details.
  - cbn. by rewrite !Z.add_0_r, app_nil_r.
  - cbn [fold_left incomingBranchCallback]. rewrite IH. unfold positiveBranches.
    cbn [List.filter]. rewrite <- app_assoc.
    destruct (0 <? BranchDetail.taken b); cbn [length]; tuple_eq.
Qed.

Lemma mergeBranchDetails_spec existing incoming :
  let details :=
    List.map (mergedBranch incoming) existing ++ newBranches existing incoming in
  mergeBranchDetails existing incoming =
  Branches.mk details (Z.of_nat (positiveBranches details))
    (Z.of_nat (length details)).
Proof.
  unfold mergeBranchDetails. rewrite existing_branch_pass.
  rewrite (right_id_L ∅ (∪)). rewrite incoming_branch_pass.
  fold (newBranches existing incoming). simpl.
  unfold positiveBranches.
  rewrite List.filter_app, !length_app, length_map. f_equal; lia.
Qed.

(** ** The branch key *)

Lemma pretty_N_go_colonFree x s :
  colonFree s = true -> colonFree (pretty_N_go x s) = true.
Proof.
  revert s. induction (N.lt_wf_0 x) as [x _ IH]; intros s Hs.
  assert (x = 0 \/ 0 < x)%N as [->|Hpos] by lia.
  - by rewrite pretty_N_go_0.
  - rewrite pretty_N_go_step by done. apply IH.
    + by apply N.div_lt.
    + simpl. rewrite Hs, andb_true_r. unfold pretty_N_char.
      by repeat case_match.
Qed.

Lemma pretty_Z_colonFree (z : Z) : colonFree (pretty z) = true.
Proof.
  assert (forall n : N, colonFree (pretty n) = true) as HN.
  { intros n. unfold pretty, pretty_N. case_decide; [done|].
    by apply pretty_N_go_colonFree. }
  destruct z as [|p|p]; [done|apply (HN (Npos p))|].
  change (pretty (Z.neg p)) with ("-" +:+ pretty (Npos p)). simpl. apply HN.
Qed.

Lemma colon_split a a' rest rest' :
  colonFree a = true -> colonFree a' = true ->
  a +:+ ":" +:+ rest = a' +:+ ":" +:+ rest' -> a = a' /\ rest = rest'.
Proof.
  revert a'. induction a as [|c a IH]; intros [|c' a']; cbn.
  - intros _ _ H. by injection H.
  - intros _ [Hc _]%andb_true_iff H. injection H as <- _. done.
  - intros [Hc _]%andb_true_iff _ H. injection H as -> _. done.
  - intros [_ Ha]%andb_true_iff [_ Ha']%andb_true_iff H.
    injection H as -> Heq. destruct (IH a' Ha Ha' Heq) as [-> ->]. done.
Qed.

(** Two branch details have the same key exactly when they agree on line,
    block and branch: distinct branches never collide in the merge. *)
Theorem getKey_inj b1 b2 :
  getKey b1 = getKey b2 <->
  BranchDetail.line b1 = BranchDetail.line b2 /\
  BranchDetail.block b1 = BranchDetail.block b2 /\
  BranchDetail.branch b1 = BranchDetail.branch b2.
Proof.
  unfold getKey. split.
  - intros H.
    apply colon_split in H as [Hl H]; [|apply pretty_Z_colonFree..].
    apply colon_split in H as [Hb Hr]; [|apply pretty_Z_colonFree..].
    by repeat split; apply (inj pretty).
  - by intros (-> & -> & ->).
Qed.

End BranchMerge.

Section MergeProperties.

Import Examples.

Lemma mergedBranch_fields incoming b :
  BranchDetail.line (mergedBranch incoming b) = BranchDetail.line b /\
  BranchDetail.block (mergedBranch incoming b) = BranchDetail.block b /\
  BranchDetail.branch (mergedBranch incoming b) = BranchDetail.branch b /\
  BranchDetail.taken (mergedBranch incoming b) =
    if incomingReportsTaken incoming (getKey b)
    then BranchDetail.taken b + 1 else BranchDetail.taken b.
Proof. unfold mergedBranch. by destruct (incomingReportsTaken _ _). Qed.

(** Branch merge: when both sections have branch data, every branch detail
    of the existing section keeps its position, line, block and branch, and
    its [taken] grows by one exactly when the incoming section has a detail
    with the same key and [taken > 0]; [found] and [hit] are recounted from
    the merged details. *)
Theorem mergeBranchCoverage_increment existingCoverage coverage existing incoming :
  branches existingCoverage = Some existing ->
  branches coverage = Some incoming ->
  exists merged,
    mergeBranchCoverage existingCoverage coverage = Some merged /\
    Branches.found merged = Z.of_nat (length (Branches.details merged)) /\
    Branches.hit merged = Z.of_nat (positiveBranches (Branches.details merged)) /\
    forall (k : nat) b, Branches.details existing !! k = Some b ->
      exists b', Branches.details merged !! k = Some b' /\
        BranchDetail.line b' = BranchDetail.line b /\
        BranchDetail.block b' = BranchDetail.block b /\
        BranchDetail.branch b' = BranchDetail.branch b /\
        BranchDetail.taken b' =
          if incomingReportsTaken (Branches.details incoming) (getKey b)
          then BranchDetail.taken b + 1 else BranchDetail.taken b.
Proof.
  intros He Hi. unfold mergeBranchCoverage. rewrite He, Hi.
  eexists. split; [reflexivity|].
  rewrite mergeBranchDetails_spec. cbn [Branches.details Branches.found Branches.hit].
  split; [done|]. split; [done|]. intros k b Hk.
  exists (mergedBranch (Branches.details incoming) b). split.
  - rewrite lookup_app_l.
    + by rewrite lookup_map, Hk.
    + rewrite length_map. by eapply lookup_lt_Some.
  - apply mergedBranch_fields.
Qed.

Lemma mergeBranchCoverage_increment_witness :
  exists merged,
    mergeBranchCoverage sectionA sectionC = Some merged /\
    Branches.found merged = Z.of_nat (length (Branches.details merged)) /\
    Branches.hit merged = Z.of_nat (positiveBranches (Branches.details merged)) /\
    forall (k : nat) b, [BranchDetail.mk 5 0 0 1] !! k = Some b ->
      exists b', Branches.details merged !! k = Some b' /\
        BranchDetail.line b' = BranchDetail.line b /\
        BranchDetail.block b' = BranchDetail.block b /\
        BranchDetail.branch b' = BranchDetail.branch b /\
        BranchDetail.taken b' =
          if incomingReportsTaken
               [BranchDetail.mk 5 0 0 3; BranchDetail.mk 5 0 1 0] (getKey b)
          then BranchDetail.taken b + 1 else BranchDetail.taken b.
Proof.
  apply (mergeBranchCoverage_increment sectionA sectionC
           (Branches.mk [BranchDetail.mk 5 0 0 1] 1 1)
           (Branches.mk [BranchDetail.mk 5 0 0 3; BranchDetail.mk 5 0 1 0] 1 2)).
  - reflexivity.
  - reflexivity.
Defined.

Example mergeBranchCoverage_sectionA_sectionC :
  mergeBranchCoverage sectionA sectionC =
  Some (Branches.mk [BranchDetail.mk 5 0 0 2; BranchDetail.mk 5 0 1 0] 1 2).
Proof. vm_compute. reflexivity. Qed.

(** Line merge, line numbers: the merged details list exactly the line
    numbers of the two inputs, and list none twice when neither input does. *)
Theorem mergeLineCoverage_line_numbers existingCoverage coverage existing incoming :
  lines existingCoverage = Some existing ->
  lines coverage = Some incoming ->
  exists merged,
    mergeLineCoverage existingCoverage coverage = Some merged /\
    (forall n,
       In n (List.map LineDetail.line (Lines.details merged)) <->
       In n (List.map LineDetail.line (Lines.details existing)) \/
       In n (List.map LineDetail.line (Lines.details incoming))) /\
    (NoDup (List.map LineDetail.line (Lines.details existing)) ->
     NoDup (List.map LineDetail.line (Lines.details incoming)) ->
     NoDup (List.map LineDetail.line (Lines.details merged))).
Proof.
  intros He Hi. unfold mergeLineCoverage. rewrite He, Hi.
  eexists. split; [reflexivity|].
  rewrite mergeLineDetails_spec. cbn [Lines.details]. split.
  - intros n.
    rewrite <- list_elem_of_In, <- (elem_of_list_to_set (C:=gset Z)).
    rewrite merged_lines_set, elem_of_list_to_set, list_elem_of_In.
    by rewrite List.map_app, in_app_iff.
  - apply merged_lines_NoDup.
Qed.

Lemma mergeLineCoverage_line_numbers_witness :
  exists merged,
    mergeLineCoverage sectionA sectionB = Some merged /\
    NoDup (List.map LineDetail.line (Lines.details merged)).
Proof.
  destruct (mergeLineCoverage_line_numbers sectionA sectionB
              (Lines.mk [LineDetail.mk 5 3; LineDetail.mk 6 0] 1 2)
              (Lines.mk [LineDetail.mk 5 7; LineDetail.mk 6 0; LineDetail.mk 7 1] 2 3)
              eq_refl eq_refl) as (merged & Hm & _ & Hnodup).
  exists merged. split; [exact Hm|]. apply Hnodup.
  - cbn. repeat (apply NoDup_cons_2; [vm_compute; set_solver|]). apply NoDup_nil_2.
  - cbn. repeat (apply NoDup_cons_2; [vm_compute; set_solver|]). apply NoDup_nil_2.
Defined.

(** Line merge, new lines: the incoming details whose line number the
    existing section does not list come after the existing details,
    unchanged and in the order of the incoming section; an incoming detail
    whose line number the existing section lists is not appended. *)
Theorem mergeLineCoverage_appends existingCoverage coverage existing incoming :
  lines existingCoverage = Some existing ->
  lines coverage = Some incoming ->
  exists merged,
    mergeLineCoverage existingCoverage coverage = Some merged /\
    drop (length (Lines.details existing)) (Lines.details merged) =
      newLines (Lines.details existing) (Lines.details incoming) /\
    (forall d, In d (newLines (Lines.details existing) (Lines.details incoming)) <->
       In d (Lines.details incoming) /\
       ~ In (LineDetail.line d) (List.map LineDetail.line (Lines.details existing))).
Proof.
  intros He Hi. unfold mergeLineCoverage. rewrite He, Hi.
  eexists. split; [reflexivity|].
  rewrite mergeLineDetails_spec. cbn [Lines.details]. split.
  - rewrite drop_app_length'; [done|]. by rewrite length_map.
  - intros d. apply newLines_In.
Qed.

Lemma mergeLineCoverage_appends_witness :
  exists merged,
    mergeLineCoverage sectionA sectionB = Some merged /\
    drop 2 (Lines.details merged) = [LineDetail.mk 7 1].
Proof.
  destruct (mergeLineCoverage_appends sectionA sectionB
              (Lines.mk [LineDetail.mk 5 3; LineDetail.mk 6 0] 1 2)
              (Lines.mk [LineDetail.mk 5 7; LineDetail.mk 6 0; LineDetail.mk 7 1] 2 3)
              eq_refl eq_refl) as (merged & Hm & Hdrop & _).
  exists merged. split; [exact Hm|]. exact Hdrop.
Defined.

(** ** Merging and classifying *)

Lemma reportsHit_In s x :
  reportsHit s x = true <->
  exists l d, lines s = Some l /\ In d (Lines.details l) /\
    0 < LineDetail.line d /\ LineDetail.line d - 1 = x /\ 0 < LineDetail.hit d.
Proof.
  unfold reportsHit. destruct (lines s) as [l|].
  - rewrite existsb_exists. split.
    + intros (d & Hin & [[Hpos Heq]%andb_true_iff Hhit]%andb_true_iff).
      exists l, d. repeat split; [done|lia..].
    + intros (l' & d & [= <-] & Hin & ? & ? & ?). exists d. split; [done|].
      rewrite !andb_true_iff. repeat split; lia.
  - split; [done|]. by intros (l & d & ? & _).
Qed.

Lemma incomingReportsHit_In incoming n :
  incomingReportsHit incoming n = true <->
  exists r, In r incoming /\ LineDetail.line r = n /\ 0 < LineDetail.hit r.
Proof.
  unfold incomingReportsHit. rewrite existsb_exists. split.
  - intros (r & Hin & [Hl Hh]%andb_true_iff). exists r. repeat split; [done|lia..].
  - intros (r & Hin & Hl & Hh). exists r. split; [done|].
    rewrite andb_true_iff. split; lia.
Qed.

Lemma mergeSections_reportsHit existingSection section existing merged x :
  lines existingSection = Some existing ->
  (forall d, In d (Lines.details existing) -> 0 <= LineDetail.hit d) ->
  mergeSections existingSection section = Some merged ->
  reportsHit merged x = true <->
  reportsHit existingSection x = true \/ reportsHit section x = true.
Proof.
  intros He Hnonneg Hm. unfold mergeSections, mergeLineCoverage in Hm.
  rewrite He in Hm. destruct (lines section) as [incoming|] eqn:Hi; [|done].
  injection Hm as <-. rewrite !reportsHit_In. cbn [lines].
  setoid_rewrite He. setoid_rewrite Hi. split.
  - intros (l & d' & [= <-] & Hin & Hpos & Hx & Hhit).
    rewrite mergeLineDetails_spec in Hin. cbn [Lines.details] in Hin.
    apply in_app_iff in Hin as [(d & <- & Hd)%in_map_iff|[Hd _]%newLines_In].
    + rewrite mergedLine_line in Hpos, Hx. rewrite mergedLine_hit in Hhit.
      destruct (incomingReportsHit _ _) eqn:Hrep.
      * apply incomingReportsHit_In in Hrep as (r & Hr & Hline & Hrhit).
        right. exists incoming, r. repeat split; [done|lia..].
      * left. exists existing, d. by repeat split.
    + right. exists incoming, d'. by repeat split.
  - intros [(l & d & [= <-] & Hd & Hpos & Hx & Hhit)
           |(l & r & [= <-] & Hr & Hpos & Hx & Hhit)].
    + eexists _, (mergedLine (Lines.details incoming) d). split; [reflexivity|].
      rewrite mergeLineDetails_spec. cbn [Lines.details].
      rewrite in_app_iff, mergedLine_line, mergedLine_hit.
      split; [left; by apply in_map|]. repeat split; [done..|].
      destruct (incomingReportsHit _ _); lia.
    + destruct (decide (LineDetail.line r ∈
                          List.map LineDetail.line (Lines.details existing)))
        as [Hin%list_elem_of_In|Hnot].
      * apply in_map_iff in Hin as (d & Hline & Hd).
        eexists _, (mergedLine (Lines.details incoming) d). split; [reflexivity|].
        rewrite mergeLineDetails_spec. cbn [Lines.details].
        rewrite in_app_iff, mergedLine_line, mergedLine_hit.
        split; [left; by apply in_map|].
        assert (incomingReportsHit (Lines.details incoming) (LineDetail.line d) = true)
          as -> by (apply incomingReportsHit_In; exists r; by repeat split).
        pose proof (Hnonneg d Hd). repeat split; lia.
      * eexists _, r. split; [reflexivity|].
        rewrite mergeLineDetails_spec. cbn [Lines.details].
        rewrite in_app_iff, newLines_In.
        split; [|by repeat split]. right. split; [done|].
        by rewrite <- list_elem_of_In.
Qed.

(** Merging loses no covered line: with non-negative hit counters in the
    existing section, a line is covered (in [full] or [partial]) when the
    merged section is classified exactly when it is covered when the two
    sections are classified one after the other. *)
Theorem mergeSections_covered existingSection section existing merged x :
  lines existingSection = Some existing ->
  (forall d, In d (Lines.details existing) -> 0 <= LineDetail.hit d) ->
  mergeSections existingSection section = Some merged ->
  x ∈ full (classify [merged]) \/ x ∈ partial (classify [merged]) <->
  x ∈ full (classify [existingSection; section]) \/
  x ∈ partial (classify [existingSection; section]).
Proof.
  intros He Hnonneg Hm. rewrite !classify_covered. split.
  - intros (s & [<-|[]] & Hhit).
    apply (mergeSections_reportsHit _ _ _ _ x He Hnonneg Hm) in Hhit as [?|?].
    + exists existingSection. simpl. auto.
    + exists section. simpl. auto.
  - intros (s & Hin & Hhit). exists merged. split; [simpl; auto|].
    apply (mergeSections_reportsHit _ _ _ _ x He Hnonneg Hm).
    destruct Hin as [<-|[<-|[]]]; auto.
Qed.

Lemma mergeSections_covered_witness :
  let merged :=
    {| title := "t"; file := "src/a.ts";
       lines := Some (Lines.mk [LineDetail.mk 5 4; LineDetail.mk 6 0; LineDetail.mk 7 1] 2 3);
       functions := None;
       branches := Some (Branches.mk [BranchDetail.mk 5 0 0 1] 1 1) |} in
  6 ∈ full (classify [merged]) \/ 6 ∈ partial (classify [merged]) <->
  6 ∈ full (classify [sectionA; sectionB]) \/
  6 ∈ partial (classify [sectionA; sectionB]).
Proof.
  apply (mergeSections_covered sectionA sectionB
           (Lines.mk [LineDetail.mk 5 3; LineDetail.mk 6 0] 1 2)).
  - reflexivity.
  - intros d [<-|[<-|[]]]; vm_compute; discriminate.
  - vm_compute. reflexivity.
Defined.

End MergeProperties.

(** * Further properties of the aggregation *)

Section SectionsMap.

Import Examples.

Implicit Types (coverages : gmap string CovSection) (data : list CovSection)
  (st : gmap string CovSection * bool).

Lemma mergeSections_key existingSection section merged :
  mergeSections existingSection section = Some merged ->
  sectionKey merged = sectionKey existingSection.
Proof.
  unfold mergeSections. destruct (mergeLineCoverage _ _); [|done].
  by intros [= <-].
Qed.

Lemma addToSectionsMap_dom st section :
  dom (fst (addToSectionsMap st section)) = {[sectionKey section]} ∪ dom (fst st).
Proof.
  destruct st as [coverages raised]. unfold addToSectionsMap.
  destruct (coverages !! sectionKey section) as [existing|] eqn:E.
  - assert (sectionKey section ∈ dom coverages) by (apply elem_of_dom; eauto).
    destruct (mergeSections existing section); simpl.
    + rewrite dom_insert_L. set_solver.
    + set_solver.
  - simpl. by rewrite dom_insert_L.
Qed.

Lemma fold_addToSectionsMap_dom data st :
  dom (fst (fold_left addToSectionsMap data st)) =
  list_to_set (List.map sectionKey data) ∪ dom (fst st).
Proof.
  revert st. induction data as [|s data IH]; intros st; simpl.
  - set_solver.
  - rewrite IH, addToSectionsMap_dom. set_solver.
Qed.

Lemma addToSectionsMap_other st section key :
  sectionKey section <> key ->
  fst (addToSectionsMap st section) !! key = fst st !! key.
Proof.
  destruct st as [coverages raised]. unfold addToSectionsMap. intros Hne.
  destruct (coverages !! sectionKey section) as [existing|].
  - destruct (mergeSections existing section); simpl; [|done].
    by rewrite lookup_insert_ne.
  - simpl. by rewrite lookup_insert_ne.
Qed.

Lemma fold_addToSectionsMap_other data st key :
  (forall s, In s data -> sectionKey s <> key) ->
  fst (fold_left addToSectionsMap data st) !! key = fst st !! key.
Proof.
  revert st. induction data as [|s data IH]; intros st Hne; simpl; [done|].
  rewrite IH by (intros s' ?; apply Hne; simpl; auto).
  apply addToSectionsMap_other, Hne. simpl. auto.
Qed.

Lemma addToSectionsMap_keyed st section :
  keyed (fst st) -> keyed (fst (addToSectionsMap st section)).
Proof.
  destruct st as [coverages raised]. unfold addToSectionsMap. simpl. intros Hk.
  destruct (coverages !! sectionKey section) as [existing|] eqn:E.
  - destruct (mergeSections existing section) as [merged|] eqn:Hm; simpl; [|done].
    intros key v. rewrite lookup_insert. case_decide as Hkey.
    + intros [= <-]. rewrite (mergeSections_key _ _ _ Hm), <- Hkey. by apply Hk.
    + apply Hk.
  - simpl. intros key v. rewrite lookup_insert. case_decide as Hkey.
    + by intros [= <-].
    + apply Hk.
Qed.

Lemma fold_addToSectionsMap_keyed data st :
  keyed (fst st) -> keyed (fst (fold_left addToSectionsMap data st)).
Proof.
  revert st. induction data as [|s data IH]; intros st Hk; simpl; [done|].
  by apply IH, addToSectionsMap_keyed.
Qed.

(** The map built by [addSections] has exactly the merge keys of the
    sections it was given, and every entry is stored under its own key. *)
Theorem addSections_keys_exact data :
  (forall key, is_Some (fst (addSections ∅ data) !! key) <->
               exists s, In s data /\ sectionKey s = key) /\
  (forall key v, fst (addSections ∅ data) !! key = Some v -> sectionKey v = key).
Proof.
  split.
  - intros key. rewrite <- elem_of_dom. unfold addSections.
    rewrite fold_addToSectionsMap_dom. simpl.
    rewrite dom_empty_L, (right_id_L ∅ (∪)), elem_of_list_to_set, list_elem_of_In.
    rewrite in_map_iff. naive_solver.
  - unfold addSections. apply fold_addToSectionsMap_keyed. by intros key v.
Qed.

(** A section whose merge key no other section shares is stored as it is. *)
Theorem addSections_unique_key pre section post :
  (forall s, In s (pre ++ post) -> sectionKey s <> sectionKey section) ->
  fst (addSections ∅ (pre ++ section :: post)) !! sectionKey section = Some section.
Proof.
  intros Hne. unfold addSections. rewrite fold_left_app. cbn [fold_left].
  rewrite fold_addToSectionsMap_other
    by (intros s ?; apply Hne; rewrite in_app_iff; auto).
  assert (fst (fold_left addToSectionsMap pre (∅, false)) !! sectionKey section = None)
    as Hfresh.
  { rewrite fold_addToSectionsMap_other; [done|].
    intros s ?. apply Hne. rewrite in_app_iff. auto. }
  destruct (fold_left addToSectionsMap pre (∅, false)) as [coverages raised].
  unfold addToSectionsMap. simpl in *. rewrite Hfresh. simpl.
  by rewrite lookup_insert_eq.
Qed.

Lemma addSections_unique_key_witness :
  fst (addSections ∅ ([sectionA] ++ hitOnly :: [sectionB])) !! sectionKey hitOnly
  = Some hitOnly.
Proof.
  apply (addSections_unique_key [sectionA] hitOnly [sectionB]).
  intros s [<-|[<-|[]]]; vm_compute; discriminate.
Defined.

Lemma fold_addToSectionsMap_lines data : forall st,
  (forall s, In s data -> is_Some (lines s)) ->
  (forall key v, fst st !! key = Some v -> is_Some (lines v)) ->
  snd (fold_left addToSectionsMap data st) = snd st /\
  forall key v, fst (fold_left addToSectionsMap data st) !! key = Some v ->
                is_Some (lines v).
Proof.
  induction data as [|s data IH]; intros st Hdata Hst; [done|].
  cbn [fold_left].
  assert (snd (addToSectionsMap st s) = snd st /\
          forall key v, fst (addToSectionsMap st s) !! key = Some v ->
                        is_Some (lines v)) as [Hsnd Hfst].
  { destruct st as [coverages raised]. unfold addToSectionsMap. simpl in *.
    destruct (Hdata s (or_introl eq_refl)) as [ls Hls].
    destruct (coverages !! sectionKey s) as [existing|] eqn:E.
    - destruct (Hst _ _ E) as [le Hle].
      unfold mergeSections, mergeLineCoverage. rewrite Hle, Hls. simpl.
      split; [done|]. intros key v. rewrite lookup_insert. case_decide.
      + intros [= <-]. simpl. eauto.
      + apply Hst.
    - simpl. split; [done|]. intros key v. rewrite lookup_insert. case_decide.
      + intros [= <-]. eauto.
      + apply Hst. }
  destruct (IH (addToSectionsMap st s)) as [H1 H2];
    [intros s' ?; apply Hdata; simpl; auto|done|].
  split; [congruence|done].
Qed.

(** When every section has line data no merge raises, and every entry of
    the map has line data. *)
Theorem addSections_never_raises data :
  (forall s, In s data -> is_Some (lines s)) ->
  snd (addSections ∅ data) = false /\
  forall key v, fst (addSections ∅ data) !! key = Some v -> is_Some (lines v).
Proof.
  intros Hdata. unfold addSections.
  apply (fold_addToSectionsMap_lines data (∅, false)); [done|]. by intros key v.
Qed.

Lemma addSections_never_raises_witness :
  snd (addSections ∅ [sectionA; sectionB; hitOnly]) = false /\
  forall key v, fst (addSections ∅ [sectionA; sectionB; hitOnly]) !! key = Some v ->
                is_Some (lines v).
Proof.
  apply (addSections_never_raises [sectionA; sectionB; hitOnly]).
  intros s [<-|[<-|[<-|[]]]]; eexists; reflexivity.
Defined.

Lemma fold_counts_runs data : forall st key m lm,
  fst st !! key = Some m -> lines m = Some lm ->
  (forall s, In s data -> sectionKey s = key -> is_Some (lines s)) ->
  exists m' lm',
    fst (fold_left addToSectionsMap data st) !! key = Some m' /\
    lines m' = Some lm' /\ title m' = title m /\ file m' = file m /\
    forall (k : nat) d, Lines.details lm !! k = Some d ->
      exists d', Lines.details lm' !! k = Some d' /\
        LineDetail.line d' = LineDetail.line d /\
        LineDetail.hit d' =
          LineDetail.hit d + Z.of_nat (runsReporting key data (LineDetail.line d)).
Proof.
  induction data as [|s data IH]; intros st key m lm Hm Hlm Hdata.
  - exists m, lm. repeat split; [done..|]. intros k d Hk. exists d.
    repeat split; [done|]. unfold runsReporting. simpl. lia.
  - cbn [fold_left]. destruct (decide (sectionKey s = key)) as [Hkey|Hkey].
    + destruct (Hdata s (or_introl eq_refl) Hkey) as [ls Hls].
      assert (fst (addToSectionsMap st s) !! key =
              Some {| title := title m; file := file m;
                      lines := Some (mergeLineDetails (Lines.details lm) (Lines.details ls));
                      functions := functions m;
                      branches := mergeBranchCoverage m s |}) as Hstep.
      { destruct st as [coverages raised]. unfold addToSectionsMap. simpl in *.
        rewrite Hkey, Hm. unfold mergeSections, mergeLineCoverage.
        rewrite Hls, Hlm. simpl. by rewrite lookup_insert_eq. }
      destruct (IH _ key _ _ Hstep eq_refl) as (m' & lm' & Hm' & Hlm' & Ht & Hf & Hd).
      { intros s' ? ?. apply Hdata; simpl; auto. }
      exists m', lm'. repeat split; [done..|]. intros k d Hk.
      destruct (Hd k (mergedLine (Lines.details ls) d)) as (d' & Hk' & Hline & Hhit).
      { rewrite mergeLineDetails_spec. cbn [Lines.details].
        rewrite lookup_app_l by (rewrite length_map; by eapply lookup_lt_Some).
        by rewrite lookup_map, Hk. }
      exists d'. split; [done|]. rewrite mergedLine_line in Hline, Hhit.
      split; [done|]. rewrite Hhit, mergedLine_hit. unfold runsReporting.
      cbn [List.filter]. rewrite bool_decide_eq_true_2 by done.
      unfold sectionReportsHit at 2. rewrite Hls. cbn [andb].
      destruct (incomingReportsHit _ _); cbn [length]; lia.
    + destruct (IH (addToSectionsMap st s) key m lm)
        as (m' & lm' & Hm' & Hlm' & Ht & Hf & Hd);
        [by rewrite addToSectionsMap_other|done
        |intros s' ? ?; apply Hdata; simpl; auto|].
      exists m', lm'. repeat split; [done..|]. intros k d Hk.
      destruct (Hd k d Hk) as (d' & ? & ? & Hhit). exists d'.
      repeat split; [done..|]. rewrite Hhit. unfold runsReporting.
      cbn [List.filter]. by rewrite bool_decide_eq_false_2.
Qed.

(** Hit counters count runs: the entry of the first section's key keeps the
    title, the file and, position by position, the line details of the first
    section, each hit counter raised by the number of later sections of the
    same key that report the line as hit. *)
Theorem addSections_counts_runs first rest lfirst :
  lines first = Some lfirst ->
  (forall s, In s rest -> sectionKey s = sectionKey first -> is_Some (lines s)) ->
  exists m lm,
    fst (addSections ∅ (first :: rest)) !! sectionKey first = Some m /\
    lines m = Some lm /\ title m = title first /\ file m = file first /\
    forall (k : nat) d, Lines.details lfirst !! k = Some d ->
      exists d', Lines.details lm !! k = Some d' /\
        LineDetail.line d' = LineDetail.line d /\
        LineDetail.hit d' =
          LineDetail.hit d +
          Z.of_nat (runsReporting (sectionKey first) rest (LineDetail.line d)).
Proof.
  intros Hl Hrest. unfold addSections. cbn [fold_left].
  apply (fold_counts_runs rest _ (sectionKey first) first lfirst); [|done..].
  unfold addToSectionsMap. rewrite lookup_empty. simpl. by rewrite lookup_insert_eq.
Qed.

Lemma addSections_counts_runs_witness :
  exists m lm,
    fst (addSections ∅ (sectionA :: [sectionB; hitOnly; sectionC]))
      !! sectionKey sectionA = Some m /\
    lines m = Some lm /\ title m = title sectionA /\ file m = file sectionA /\
    forall (k : nat) d, [LineDetail.mk 5 3; LineDetail.mk 6 0] !! k = Some d ->
      exists d', Lines.details lm !! k = Some d' /\
        LineDetail.line d' = LineDetail.line d /\
        LineDetail.hit d' =
          LineDetail.hit d +
          Z.of_nat (runsReporting (sectionKey sectionA) [sectionB; hitOnly; sectionC]
                      (LineDetail.line d)).
Proof.
  apply (addSections_counts_runs sectionA [sectionB; hitOnly; sectionC]
           (Lines.mk [LineDetail.mk 5 3; LineDetail.mk 6 0] 1 2)).
  - reflexivity.
  - intros s [<-|[<-|[<-|[]]]] _; eexists; reflexivity.
Defined.

(** Three runs over one file: line 5 ends at 3 + 2. *)
Example addSections_three_runs :
  lines <$> (fst (addSections ∅ [sectionA; sectionB; hitOnly; sectionC]) !! "t::src/a.ts")
  = Some (Some (Lines.mk
       [LineDetail.mk 5 5; LineDetail.mk 6 0; LineDetail.mk 7 1; LineDetail.mk 8 0] 2 4)).
Proof. vm_compute. reflexivity. Qed.

End SectionsMap.

Section AggregationMore.

Variable c : Collaborators.

Implicit Types (entry : string * string) (files : list (string * string))
  (outputChannel : list string).

(** ** Unrecognised files *)

(** A file whose format is not recognised changes nothing: neither the
    outcome nor the output channel. *)
Theorem filesToSections_unrecognised pre entry post outputChannel :
  coverageFileType c (snd entry) = NONE ->
  filesToSections c (pre ++ entry :: post) outputChannel =
  filesToSections c (pre ++ post) outputChannel.
Proof.
  intros Hnone.
  assert (forall out, parsePromises c (entry :: post) out = parsePromises c post out)
    as Hskip.
  { intros out. cbn [parsePromises]. destruct entry as [fileName fileContent].
    unfold extract. simpl in Hnone. rewrite Hnone.
    by destruct (parsePromises c post out). }
  assert (forall out, parsePromises c (pre ++ entry :: post) out =
                      parsePromises c (pre ++ post) out) as Hpre.
  { induction pre as [|e pre IH]; intros out; [apply Hskip|].
    rewrite <- !app_comm_cons. cbn [parsePromises].
    destruct (extract c e out) as [p out1]. by rewrite IH. }
  unfold filesToSections. by rewrite Hpre.
Qed.

(** ** The output channel *)

Lemma handleError_app now system error outputChannel :
  handleError now system error outputChannel =
  outputChannel ++ handleError now system error [].
Proof.
  unfold handleError. destruct (stack error) as [stackTrace|]; [|done].
  case_decide; [done|]. by rewrite <- app_assoc.
Qed.

Lemma handleError_tagged now system coverageFilename err outputChannel :
  In (errorLine now system coverageFilename err)
     (handleError now system (tagError coverageFilename err) outputChannel).
Proof.
  unfold handleError. cbn [message tagError stack].
  case_decide as Hempty; [discriminate|].
  destruct (stack err) as [stackTrace|]; [case_decide|];
    rewrite ?in_app_iff; simpl; auto.
Qed.

Lemma extract_output entry outputChannel :
  snd (extract c entry outputChannel) = outputChannel ++ snd (extract c entry []).
Proof.
  destruct entry as [fileName fileContent].
  extract_cases; rewrite ?app_nil_r; try done; apply handleError_app.
Qed.

Lemma parsePromises_output files outputChannel :
  snd (parsePromises c files outputChannel) =
  outputChannel ++ snd (parsePromises c files []).
Proof.
  revert outputChannel. induction files as [|e files IH]; intros out.
  - simpl. by rewrite app_nil_r.
  - cbn [parsePromises].
    pose proof (extract_output e out) as He.
    destruct (extract c e out) as [p out1], (extract c e []) as [p0 out0].
    simpl in He. subst out1.
    pose proof (IH (out ++ out0)) as H1. pose proof (IH out0) as H2.
    destruct (parsePromises c files (out ++ out0)) as [ps1 o1],
             (parsePromises c files out0) as [ps2 o2],
             (parsePromises c files []) as [ps3 o3].
    simpl in *. subst. by rewrite app_assoc.
Qed.

Lemma filesToSections_snd files outputChannel :
  snd (filesToSections c files outputChannel) =
  snd (parsePromises c files outputChannel).
Proof.
  unfold filesToSections. by destruct (parsePromises c files outputChannel).
Qed.

Lemma extract_quiet entry outputChannel :
  parseFails c entry = false -> snd (extract c entry outputChannel) = outputChannel.
Proof. destruct entry as [fileName fileContent]. extract_cases. Qed.




(** The output channel only grows: what it held stays in front, and the
    lines added do not depend on what it held.  Nothing is added when no
    file fails to parse. *)
Theorem filesToSections_output files outputChannel :
  snd (filesToSections c files outputChannel) =
    outputChannel ++ snd (filesToSections c files []) /\
  ((forall entry, In entry files -> parseFails c entry = false) ->
   snd (filesToSections c files outputChannel) = outputChannel).
Proof.
  rewrite !filesToSections_snd. split; [apply parsePromises_output|].
  revert outputChannel. induction files as [|e files IH]; intros out Hquiet; [done|].
  cbn [parsePromises].
  pose proof (extract_quiet e out (Hquiet e (or_introl eq_refl))) as He.
  destruct (extract c e out) as [p out1]. simpl in He. subst out1.
  specialize (IH out (fun entry H => Hquiet entry (or_intror H))).
  by destruct (parsePromises c files out).
Qed.


(** ** Outcome of the aggregation *)

Lemma extract_answersWell entry outputChannel :
  answersWell c entry = true ->
  pushed (fst (extract c entry outputChannel)) = [] /\ parsedSections c entry = [] \/
  pushed (fst (extract c entry outputChannel)) = [Fulfilled (parsedSections c entry)].
Proof. destruct entry as [fileName fileContent]. extract_cases; auto. Qed.

Lemma awaited_answersWell files outputChannel :
  (forall entry, In entry files -> answersWell c entry = true) ->
  awaited (fst (parsePromises c files outputChannel)) =
  Fulfilled (flat_map (parsedSections c) files).
Proof.
  revert outputChannel. induction files as [|e files IH]; intros out Hwell; [done|].
  rewrite parsePromises_cons. cbn [flat_map].
  specialize (IH [] (fun entry H => Hwell entry (or_intror H))).
  destruct (extract_answersWell e [] (Hwell e (or_introl eq_refl)))
    as [[-> ->] | ->]; simpl.
  - done.
  - by rewrite awaited_cons, IH.
Qed.

Lemma parsePromises_In_inv files outputChannel p :
  In p (fst (parsePromises c files outputChannel)) ->
  exists entry, In entry files /\ fst (extract c entry []) = Some p.
Proof.
  revert outputChannel. induction files as [|e files IH]; intros out; [done|].
  rewrite parsePromises_cons, in_app_iff. intros [Hp|Hp].
  - exists e. split; [simpl; auto|].
    destruct (fst (extract c e [])) as [p'|]; [|done].
    destruct Hp as [->|[]]. done.
  - destruct (IH _ Hp) as (entry & ? & ?). exists entry. simpl. auto.
Qed.

Lemma awaited_all_Fulfilled promises :
  (forall p, In p promises -> exists d, p = Fulfilled d) ->
  exists data, awaited promises = Fulfilled data.
Proof.
  induction promises as [|p ps IH]; intros Hall; [by eexists|].
  rewrite awaited_cons.
  destruct (Hall p (or_introl eq_refl)) as [d ->].
  destruct IH as [data ->]; [intros p' ?; apply Hall; simpl; auto|].
  by eexists.
Qed.

Lemma awaited_Fulfilled_inv promises data s :
  awaited promises = Fulfilled data -> In s data ->
  exists d, In (Fulfilled d) promises /\ In s d.
Proof.
  revert data. induction promises as [|p ps IH]; intros data.
  - by intros [= <-] [].
  - rewrite awaited_cons. destruct p as [v| |], (awaited ps) as [vs| |]; try done.
    simpl. intros [= <-] [Hs|Hs]%in_app_iff.
    + exists v. auto.
    + destruct (IH vs eq_refl Hs) as (d & ? & ?). exists d. auto.
Qed.

(** The aggregation is fulfilled exactly when every parser answers, with
    data or with an [Error] object, and no merge raises; with line data in
    every parsed section the map is then [addSections] of the sections
    parsed from the files, in the order of the files.  One parser that never
    calls back, or reports its failure as a value that is not an object,
    keeps [filesToSections] from ever giving a map. *)
Theorem filesToSections_fulfilled files outputChannel :
  ((forall entry, In entry files -> answersWell c entry = true) ->
   (forall entry s,
      In entry files -> In s (parsedSections c entry) -> is_Some (lines s)) ->
   fst (filesToSections c files outputChannel) =
   Fulfilled (fst (addSections ∅ (flat_map (parsedSections c) files)))) /\
  (forall entry coverages,
     In entry files -> answersWell c entry = false ->
     fst (filesToSections c files outputChannel) <> Fulfilled coverages).
Proof.
  split.
  - intros Hwell Hlines.
    rewrite filesToSections_awaited, awaited_answersWell by done.
    destruct (fold_addToSectionsMap_lines (flat_map (parsedSections c) files)
                (∅, false)) as [Hok _].
    + intros s (entry & Hin & Hs)%in_flat_map. by apply (Hlines entry).
    + by intros key v.
    + unfold addSections. by rewrite Hok.
  - intros entry coverages Hin Hbad.
    by apply filesToSections_answers_badly with entry.
Qed.

(** The keys of the map are exactly the merge keys of the sections parsed
    from the files, and every entry is stored under its own key. *)
Theorem filesToSections_keys files outputChannel coverages :
  fst (filesToSections c files outputChannel) = Fulfilled coverages ->
  (forall key,
     is_Some (coverages !! key) <->
     exists entry data s,
       In entry files /\ fst (extract c entry []) = Some (Fulfilled data) /\
       In s data /\ sectionKey s = key) /\
  keyed coverages.
Proof.
  rewrite filesToSections_awaited.
  destruct (awaited _) as [all| |] eqn:Hall; try done.
  destruct (snd (addSections ∅ all)); [done|]. intros [= <-].
  unfold addSections. split.
  - intros key. rewrite <- elem_of_dom, fold_addToSectionsMap_dom. simpl.
    rewrite dom_empty_L, (right_id_L ∅ (∪)), elem_of_list_to_set, list_elem_of_In.
    rewrite in_map_iff. split.
    + intros (s & Hkey & Hs).
      destruct (awaited_Fulfilled_inv _ _ s Hall Hs) as (d & Hd & Hsd).
      apply parsePromises_In_inv in Hd as (entry & Hin & Hp).
      by exists entry, d, s.
    + intros (entry & d & s & Hin & Hp & Hsd & Hkey). exists s. split; [done|].
      apply (awaited_Fulfilled _ _ Hall d s); [|done].
      by apply parsePromises_In with entry.
  - apply fold_addToSectionsMap_keyed. by intros key v.
Qed.

End AggregationMore.

Section AggregationMoreExamples.

Import Examples.

Lemma filesToSections_unrecognised_witness :
  filesToSections exampleCollaborators
    ([("coverage/lcov.info", "lcov")] ++ ("README.md", "# readme") :: []) [] =
  filesToSections exampleCollaborators ([("coverage/lcov.info", "lcov")] ++ []) [].
Proof.
  apply (filesToSections_unrecognised exampleCollaborators
           [("coverage/lcov.info", "lcov")] ("README.md", "# readme") [] []).
  reflexivity.
Defined.

Lemma filesToSections_output_witness :
  snd (filesToSections exampleCollaborators
         [("coverage/lcov.info", "lcov"); ("README.md", "# readme")] ["earlier line"])
  = ["earlier line"].
Proof.
  apply (filesToSections_output exampleCollaborators
           [("coverage/lcov.info", "lcov"); ("README.md", "# readme")] ["earlier line"]).
  intros entry [<-|[<-|[]]]; reflexivity.
Defined.

(** The lines of the example: one failure reported as an object, logged
    under the name of the JaCoCo extractor. *)
Example filesToSections_failure_logged_example :
  snd (filesToSections exampleCollaborators
         [("coverage/lcov.info", "lcov"); ("coverage/jacoco.xml", "jacoco")] []) =
  logLines exampleCollaborators ("coverage/jacoco.xml", "jacoco") /\
  logLines exampleCollaborators ("coverage/jacoco.xml", "jacoco") =
  ["[1700000000000][coverageparser][jacoco-parse]: Error: filename: coverage/jacoco.xml unexpected end of input"].
Proof. split; vm_compute; reflexivity. Qed.

Lemma filesToSections_fulfilled_witness :
  fst (filesToSections exampleCollaborators
         [("coverage/lcov.info", "lcov"); ("coverage/clover.xml", "clover")] [])
  = Fulfilled {[ "t::src/a.ts" := sectionA ]} /\
  (forall coverages,
     fst (filesToSections lcovCollaborators
            [("coverage/lcov.info", "TN:"); ("notes.txt", "not a report")] [])
     <> Fulfilled coverages).
Proof.
  split.
  - rewrite (proj1 (filesToSections_fulfilled exampleCollaborators
               [("coverage/lcov.info", "lcov"); ("coverage/clover.xml", "clover")] [])).
    + vm_compute. reflexivity.
    + intros entry [<-|[<-|[]]]; reflexivity.
    + intros entry s [<-|[<-|[]]]; vm_compute; [|done].
      intros [<-|[]]. eexists. reflexivity.
  - intros coverages.
    apply (proj2 (filesToSections_fulfilled lcovCollaborators
             [("coverage/lcov.info", "TN:"); ("notes.txt", "not a report")] [])
             ("notes.txt", "not a report") coverages).
    + simpl. auto.
    + reflexivity.
Defined.

Lemma filesToSections_keys_witness :
  (forall key,
     is_Some (({[ "t::src/a.ts" := sectionA ]} : gmap string CovSection) !! key) <->
     exists entry data s,
       In entry [("coverage/lcov.info", "lcov"); ("coverage/clover.xml", "clover")] /\
       fst (extract exampleCollaborators entry []) = Some (Fulfilled data) /\
       In s data /\ sectionKey s = key) /\
  keyed ({[ "t::src/a.ts" := sectionA ]} : gmap string CovSection).
Proof.
  apply (filesToSections_keys exampleCollaborators
           [("coverage/lcov.info", "lcov"); ("coverage/clover.xml", "clover")] []).
  vm_compute. reflexivity.
Defined.

End AggregationMoreExamples.

(** * Properties of the files loader *)

Import FilesLoader LoaderSpec.

Section Loader.

Import Examples.

Variables (configStore : FilesLoader.Config) (host : Host).

Lemma manual_pass l existingFiles warnings :
  fold_left (manualPathCallback host) l (existingFiles, warnings) =
  (existingFiles ++ List.filter (existsSync host) l,
   warnings ++
     List.map missingWarning (List.filter (fun f => negb (existsSync host f)) l)).
Proof.
  revert existingFiles warnings.
  induction l as [|f l IH]; intros existingFiles warnings.
  - simpl. by rewrite !app_nil_r.
  - cbn [fold_left List.filter]. unfold manualPathCallback at 2.
    destruct (existsSync host f); cbn [negb fst snd List.map]; rewrite IH.
    + by rewrite <- app_assoc.
    + by rewrite <- app_assoc.
Qed.

Lemma globFind_fst workspaceFolder fileName warnings file :
  file ∈ fst (globFind configStore host workspaceFolder fileName warnings) <->
  globMatches configStore host fileName workspaceFolder file.
Proof.
  unfold globFind, globMatches.
  destruct (glob host _ workspaceFolder _) as [[[|f files]|]|err]; cbn [fst].
  - split; [set_solver|]. by intros (files & [= <-] & []).
  - rewrite elem_of_list_to_set, list_elem_of_In. split.
    + intros ?. by eexists.
    + by intros (files' & [= <-] & ?).
  - split; [set_solver|]. by intros (files & ? & _).
  - split; [set_solver|]. by intros (files & ? & _).
Qed.

Lemma folders_pass fileName folders (acc : gset string) warnings file :
  file ∈ fst (fold_left
    (fun (acc : gset string * list string) workspaceFolder =>
       let '(coverage, warnings) :=
         globFind configStore host workspaceFolder fileName (snd acc) in
       (fst acc ∪ coverage, warnings))
    folders (acc, warnings)) <->
  file ∈ acc \/
  exists workspaceFolder,
    In workspaceFolder folders /\
    globMatches configStore host fileName workspaceFolder file.
Proof.
  revert acc warnings. induction folders as [|folder folders IH]; intros acc warnings.
  - simpl. split; [auto|]. by intros [?|(? & [] & _)].
  - cbn [fold_left fst snd].
    pose proof (globFind_fst folder fileName warnings file) as Hg.
    destruct (globFind configStore host folder fileName warnings) as [coverage w].
    rewrite IH, elem_of_union. simpl in Hg. rewrite Hg. split.
    + intros [[?|?]|(wf & ? & ?)]; [auto|right; exists folder; simpl; auto|].
      right. exists wf. simpl. auto.
    + intros [?|(wf & [<-|?] & ?)]; [auto|auto|]. right. exists wf. auto.
Qed.

Lemma findCoverageForFileName_fst fileName warnings file :
  file ∈ fst (findCoverageForFileName configStore host fileName warnings) <->
  exists folders workspaceFolder,
    workspaceFolders host = Some folders /\ In workspaceFolder folders /\
    globMatches configStore host fileName workspaceFolder file.
Proof.
  unfold findCoverageForFileName. rewrite folders_pass.
  destruct (workspaceFolders host) as [folders|]; split.
  - intros [?|(wf & ? & ?)]; [set_solver|]. by exists folders, wf.
  - intros (folders' & wf & [= <-] & ? & ?). right. by exists wf.
  - intros [?|(wf & [] & _)]. set_solver.
  - by intros (folders' & wf & ? & _).
Qed.

Lemma findCoverageInWorkspace_fst fileNames warnings file :
  file ∈ fst (findCoverageInWorkspace configStore host fileNames warnings) <->
  foundInWorkspace configStore host fileNames file.
Proof.
  unfold findCoverageInWorkspace, foundInWorkspace.
  assert (forall (acc : gset string) w,
    file ∈ fst (fold_left
      (fun (acc : gset string * list string) fileName =>
         let '(coverage, warnings) :=
           findCoverageForFileName configStore host fileName (snd acc) in
         (fst acc ∪ coverage, warnings))
      fileNames (acc, w)) <->
    file ∈ acc \/
    exists folders fileName workspaceFolder,
      workspaceFolders host = Some folders /\
      In fileName fileNames /\ In workspaceFolder folders /\
      globMatches configStore host fileName workspaceFolder file) as Hgen.
  { induction fileNames as [|fileName fileNames IH]; intros acc w.
    - simpl. split; [auto|]. by intros [?|(? & ? & ? & _ & [] & _)].
    - cbn [fold_left fst snd].
      pose proof (findCoverageForFileName_fst fileName w file) as Hf.
      destruct (findCoverageForFileName configStore host fileName w) as [coverage w'].
      rewrite IH, elem_of_union. simpl in Hf. rewrite Hf. split.
      + intros [[?|(folders & wf & ? & ? & ?)]|(folders & fn & wf & ? & ? & ? & ?)];
          [auto| |].
        * right. exists folders, fileName, wf. simpl. auto.
        * right. exists folders, fn, wf. simpl. auto.
      + intros [?|(folders & fn & wf & ? & [<-|?] & ? & ?)]; [auto| |].
        * left. right. by exists folders, wf.
        * right. by exists folders, fn, wf. }
  rewrite Hgen. split; [|auto]. intros [?|?]; [set_solver|done].
Qed.

Lemma globFind_snd workspaceFolder fileName warnings w :
  In w (snd (globFind configStore host workspaceFolder fileName warnings)) <->
  In w warnings \/
  exists err,
    glob host (coverageBaseDir configStore +:+ "/" +:+ fileName)
         workspaceFolder (ignoredPathGlobs configStore) = GlobFails err /\
    w = globWarning err.
Proof.
  unfold globFind.
  destruct (glob host _ workspaceFolder _) as [[[|f files]|]|err]; cbn [snd].
  - split; [auto|]. by intros [?|(err & ? & _)].
  - split; [auto|]. by intros [?|(err & ? & _)].
  - split; [auto|]. by intros [?|(err & ? & _)].
  - rewrite in_app_iff. simpl. split.
    + intros [?|[<-|[]]]; [auto|]. right. by exists err.
    + intros [?|(err' & [= <-] & ->)]; auto.
Qed.

Lemma folders_pass_snd fileName folders (acc : gset string) warnings w :
  In w (snd (fold_left
    (fun (acc : gset string * list string) workspaceFolder =>
       let '(coverage, warnings) :=
         globFind configStore host workspaceFolder fileName (snd acc) in
       (fst acc ∪ coverage, warnings))
    folders (acc, warnings))) <->
  In w warnings \/
  exists workspaceFolder err,
    In workspaceFolder folders /\
    glob host (coverageBaseDir configStore +:+ "/" +:+ fileName)
         workspaceFolder (ignoredPathGlobs configStore) = GlobFails err /\
    w = globWarning err.
Proof.
  revert acc warnings. induction folders as [|folder folders IH]; intros acc warnings.
  - simpl. split; [auto|]. by intros [?|(? & ? & [] & _)].
  - cbn [fold_left fst snd].
    pose proof (globFind_snd folder fileName warnings w) as Hg.
    destruct (globFind configStore host folder fileName warnings) as [coverage w'].
    rewrite IH. simpl in Hg. rewrite Hg. split.
    + intros [[?|(err & ? & ?)]|(wf & err & ? & ? & ?)]; [auto| |].
      * right. exists folder, err. simpl. auto.
      * right. exists wf, err. simpl. auto.
    + intros [?|(wf & err & [<-|?] & ? & ?)]; [auto| |].
      * left. right. by exists err.
      * right. by exists wf, err.
Qed.

Lemma findCoverageForFileName_snd fileName warnings w :
  In w (snd (findCoverageForFileName configStore host fileName warnings)) <->
  In w warnings \/
  exists folders workspaceFolder err,
    workspaceFolders host = Some folders /\ In workspaceFolder folders /\
    glob host (coverageBaseDir configStore +:+ "/" +:+ fileName)
         workspaceFolder (ignoredPathGlobs configStore) = GlobFails err /\
    w = globWarning err.
Proof.
  unfold findCoverageForFileName. rewrite folders_pass_snd.
  apply or_iff_compat_l. destruct (workspaceFolders host) as [folders|]; split.
  - intros (wf & err & ? & ? & ?). by exists folders, wf, err.
  - intros (folders' & wf & err & [= <-] & ? & ? & ?). by exists wf, err.
  - by intros (wf & err & [] & _).
  - by intros (folders' & wf & err & ? & _).
Qed.

Lemma findCoverageInWorkspace_snd fileNames warnings w :
  In w (snd (findCoverageInWorkspace configStore host fileNames warnings)) <->
  In w warnings \/ failsInWorkspace configStore host fileNames w.
Proof.
  unfold findCoverageInWorkspace, failsInWorkspace.
  generalize (∅ : gset string). revert warnings.
  induction fileNames as [|fileName fileNames IH]; intros warnings acc.
  - simpl. split; [auto|]. by intros [?|(? & ? & ? & ? & _ & [] & _)].
  - cbn [fold_left fst snd].
    pose proof (findCoverageForFileName_snd fileName warnings w) as Hf.
    destruct (findCoverageForFileName configStore host fileName warnings)
      as [coverage w'].
    rewrite IH. simpl in Hf. rewrite Hf. split.
    + intros [[?|(folders & wf & err & ? & ? & ? & ?)]
             |(folders & fn & wf & err & ? & ? & ? & ? & ?)]; [auto| |].
      * right. exists folders, fileName, wf, err. simpl. auto.
      * right. exists folders, fn, wf, err. simpl. auto.
    + intros [?|(folders & fn & wf & err & ? & [<-|?] & ? & ? & ?)]; [auto| |].
      * left. right. by exists folders, wf, err.
      * right. by exists folders, fn, wf, err.
Qed.

(** With manual paths configured, [findCoverageFiles] gives exactly the
    manual paths that exist and shows one warning per missing path, in the
    order of the configuration; the workspace is not searched. *)
Theorem findCoverageFiles_manual warnings :
  manualCoverageFilePaths configStore <> [] ->
  findCoverageFiles configStore host warnings =
  (list_to_set (List.filter (existsSync host) (manualCoverageFilePaths configStore)),
   warnings ++
     List.map missingWarning
       (List.filter (fun f => negb (existsSync host f))
          (manualCoverageFilePaths configStore))).
Proof.
  unfold findCoverageFiles. destruct (manualCoverageFilePaths configStore) as [|f l];
    [done|]. intros _. by rewrite manual_pass.
Qed.

(** Without manual paths, [findCoverageFiles] gives exactly the files that
    [glob] matches for some configured file name in some workspace folder;
    a failing [glob] only adds its warning, and the not-found warning is
    added exactly when no file is matched. *)
Theorem findCoverageFiles_search warnings :
  manualCoverageFilePaths configStore = [] ->
  (forall file,
     file ∈ fst (findCoverageFiles configStore host warnings) <->
     foundInWorkspace configStore host (coverageFileNames configStore) file) /\
  (forall w,
     In w (snd (findCoverageFiles configStore host warnings)) <->
     In w warnings \/
     failsInWorkspace configStore host (coverageFileNames configStore) w \/
     (w = notFoundWarning (coverageFileNames configStore) /\
      fst (findCoverageFiles configStore host warnings) = ∅)).
Proof.
  intros Hmanual. unfold findCoverageFiles. rewrite Hmanual.
  pose proof (findCoverageInWorkspace_fst (coverageFileNames configStore) warnings)
    as Hfst.
  pose proof (findCoverageInWorkspace_snd (coverageFileNames configStore) warnings)
    as Hsnd.
  destruct (findCoverageInWorkspace configStore host _ warnings) as [files w'].
  simpl in Hfst, Hsnd. case_decide as Hsize; cbn [fst snd].
  - apply size_empty_iff, leibniz_equiv in Hsize. subst files. split.
    + apply Hfst.
    + intros w. rewrite in_app_iff, Hsnd. simpl. unfold notFoundWarning. split.
      * intros [[?|?]|[<-|[]]]; auto.
      * intros [?|[?|[-> _]]]; auto.
  - split; [apply Hfst|]. intros w. rewrite Hsnd. split.
    + intros [?|?]; auto.
    + intros [?|[?|[_ ->]]]; [auto|auto|]. by rewrite size_empty in Hsize.
Qed.

Lemma mapM_load (l : list string) :
  match mapM (fun file => (fun data => (file, data)) <$> readFile host file) l with
  | Some ps =>
      ps.*1 = l /\
      forall f d, (f, d) ∈ ps <-> f ∈ l /\ readFile host f = Some d
  | None => exists f, f ∈ l /\ readFile host f = None
  end.
Proof.
  induction l as [|file l IH]; simpl.
  - split; [done|]. intros f d. rewrite !elem_of_nil. tauto.
  - destruct (readFile host file) as [data|] eqn:Hread; simpl.
    + destruct (mapM _ l) as [ps|]; simpl.
      * destruct IH as [Hkeys Hps]. split; [f_equal; exact Hkeys|].
        intros f d. rewrite !elem_of_cons, Hps. split.
        { intros [[= -> ->]|[? ?]]; auto. }
        { intros [[->|?] Hd]; [left; congruence|auto]. }
      * destruct IH as (f & ? & ?). exists f. rewrite elem_of_cons. auto.
    + exists file. rewrite elem_of_cons. auto.
Qed.

(** [loadDataFiles] is all or nothing: it gives a map exactly when every
    file can be read, and the map then holds the content of each of the
    files and nothing else; one rejected read rejects the whole call. *)
Theorem loadDataFiles_spec (files : gset string) :
  (forall m,
     loadDataFiles host files = Some m <->
     (forall f, f ∈ files -> is_Some (readFile host f)) /\
     (forall f, m !! f = if decide (f ∈ files) then readFile host f else None)) /\
  (loadDataFiles host files = None <->
   exists f, f ∈ files /\ readFile host f = None).
Proof.
  unfold loadDataFiles. pose proof (mapM_load (elements files)) as Hload.
  pose proof (NoDup_elements files) as Hnodup.
  destruct (mapM _ (elements files)) as [ps|]; simpl.
  - destruct Hload as [Hkeys Hps].
    assert (forall f, (list_to_map ps : gmap string string) !! f =
                      if decide (f ∈ files) then readFile host f else None) as Hm.
    { intros f. apply option_eq. intros d.
      rewrite <- elem_of_list_to_map by (by rewrite Hkeys).
      rewrite Hps, elem_of_elements. case_decide; naive_solver. }
    assert (forall f, f ∈ files -> is_Some (readFile host f)) as Hall.
    { intros f Hf. specialize (Hm f). rewrite decide_True in Hm by done.
      rewrite <- Hm. apply elem_of_elements in Hf. rewrite <- Hkeys in Hf.
      apply list_elem_of_fmap in Hf as ([f' d] & -> & Hin).
      exists d. by apply elem_of_list_to_map; [rewrite Hkeys|]. }
    split.
    + intros m. split.
      * intros [= <-]. done.
      * intros [_ Hlookup]. f_equal. apply map_eq. intros f.
        by rewrite Hm, Hlookup.
    + split; [done|]. intros (f & Hf & Hnone).
      destruct (Hall f Hf) as [d Hd]. congruence.
  - destruct Hload as (f & Hf%elem_of_elements & Hnone). split.
    + intros m. split; [done|]. intros [Hall _].
      destruct (Hall f Hf) as [d Hd]. congruence.
    + split; [|done]. intros _. by exists f.
Qed.

End Loader.

Section LoaderExamples.

Import Examples.

Lemma findCoverageFiles_manual_witness :
  findCoverageFiles manualConfig exampleHost [] =
  (list_to_set ["/abs/lcov.info"], [missingWarning "/abs/gone.xml"]).
Proof.
  rewrite (findCoverageFiles_manual manualConfig exampleHost []).
  - vm_compute. reflexivity.
  - discriminate.
Defined.

Lemma findCoverageFiles_search_witness :
  (forall file,
     file ∈ fst (findCoverageFiles searchConfig exampleHost []) <->
     foundInWorkspace searchConfig exampleHost ["lcov.info"; "cov.xml"] file) /\
  (forall w,
     In w (snd (findCoverageFiles searchConfig exampleHost [])) <->
     In w [] \/
     failsInWorkspace searchConfig exampleHost ["lcov.info"; "cov.xml"] w \/
     (w = notFoundWarning ["lcov.info"; "cov.xml"] /\
      fst (findCoverageFiles searchConfig exampleHost []) = ∅)).
Proof.
  apply (findCoverageFiles_search searchConfig exampleHost []). reflexivity.
Defined.

(** The search of the example: the file of the first folder is found, and
    the failure in the second folder is reported once per file name. *)
Example findCoverageFiles_search_example :
  findCoverageFiles searchConfig exampleHost [] =
  ({[ "/ws1/coverage/lcov.info" ]}, [globWarning "EACCES"; globWarning "EACCES"]).
Proof. vm_compute. reflexivity. Qed.

Lemma loadDataFiles_spec_witness :
  loadDataFiles exampleHost {[ "/abs/lcov.info" ]}
    = Some {[ "/abs/lcov.info" := "TN:" ]} /\
  loadDataFiles exampleHost {[ "/abs/lcov.info"; "/abs/gone.xml" ]} = None.
Proof.
  split.
  - apply (loadDataFiles_spec exampleHost {[ "/abs/lcov.info" ]}). split.
    + intros f ->%elem_of_singleton. by eexists.
    + intros f. destruct (decide (f = "/abs/lcov.info")) as [->|Hne].
      * reflexivity.
      * rewrite lookup_singleton_ne by done. by rewrite decide_False by set_solver.
  - apply (loadDataFiles_spec exampleHost {[ "/abs/lcov.info"; "/abs/gone.xml" ]}).
    exists "/abs/gone.xml". split; [set_solver|reflexivity].
Defined.

End LoaderExamples.
